(** * Crash-analysis dashboard: the analytics of sum_stock_anan.py

    A shallow embedding of the numerical part of [sum_stock_anan.py]:
    [get_adj_close], [max_drawdown], [recovery_time], the window slice, the
    sector normalisation, the rolling volatility and the correlation table.

    Conventions of the embedding.
    - A pandas [Timestamp] of the daily index is its proleptic Gregorian day
      ordinal, a [Z] (the data is daily, every stamp is a midnight).
    - The analytics are embedded twice.  In the first embedding a price is
      an exact rational [Q]: rounding is left out, equalities between prices
      are [Qeq] ([==]), division is only used with a divisor the hypotheses
      make non-zero, price series hold no NaN, and NaN appears only where the
      program's own operations create it, as [None].  What is proved on it
      holds of the program up to the rounding of binary64.
    - In the second embedding, the module [F64], a price is an IEEE binary64
      number, as in pandas: the arithmetic rounds, cells can be NaN, and
      comparisons are those of the hardware.  It carries the properties
      whose outcome is a row or an exception: the trough of
      [recovery_time] and the failures of the sector loop.
    - A pandas [Series] is the list of its (label, value) rows, in row order.
    - A Python exception is a value of [exn], carried by [result]. *)

From Stdlib Require Import Floats.
From Stdlib Require Import String Ascii DecimalString.
From Stdlib Require Import List ZArith QArith Qminmax Lia Lqa Bool.
Import ListNotations.

Open Scope Q_scope.

(** ** Exceptions and results *)

Inductive exn : Type :=
| KeyError (key : string)
| IndexError
| ValueError.

Inductive result (A : Type) : Type :=
| Ok (a : A)
| Raise (e : exn).

Arguments Ok {A} a.
Arguments Raise {A} e.

Definition bind {A B : Type} (r : result A) (k : A -> result B) : result B :=
  match r with
  | Ok a => k a
  | Raise e => Raise e
  end.

Notation "x <- r ;; k" := (bind r (fun x => k))
  (at level 61, r at next level, right associativity).

(** ** Series *)

Definition date := Z.

Definition series (A : Type) := list (date * A).

Definition index {A : Type} (s : series A) : list date := map fst s.
Definition values {A : Type} (s : series A) : list A := map snd s.

(** ** SETTINGS *)

Definition INDEX : string := "^GSPC".

Definition SECTORS : list (string * string) :=
  [ ("Technology", "XLK");
    ("Healthcare", "XLV");
    ("Energy", "XLE");
    ("Financials", "XLF");
    ("Consumer Discretionary", "XLY") ]%string.

Definition CRASH_YEARS : list Z := [2008; 2020; 2022]%Z.

(** ** Drawdown *)

(** [series.cummax()]: the running maximum, row by row. *)
Fixpoint cummax_from (m : Q) (s : series Q) : series Q :=
  match s with
  | [] => []
  | (d, x) :: t => let m' := Qmax m x in (d, m') :: cummax_from m' t
  end.

Definition cummax (s : series Q) : series Q :=
  match s with
  | [] => []
  | (d, x) :: t => (d, x) :: cummax_from x t
  end.

(** [(series - roll_max) / roll_max]: both operands carry the same index, so
    the arithmetic is row by row. *)
Fixpoint rel_diff (s m : series Q) : series Q :=
  match s, m with
  | (d, x) :: s', (_, r) :: m' => (d, (x - r) / r) :: rel_diff s' m'
  | _, _ => []
  end.

Definition drawdown (s : series Q) : series Q := rel_diff s (cummax s).

(** [Series.min()]: NaN ([None]) on an empty series. *)
Fixpoint min_from (m : Q) (l : list Q) : Q :=
  match l with
  | [] => m
  | x :: t => min_from (Qmin m x) t
  end.

Definition series_min (s : series Q) : option Q :=
  match values s with
  | [] => None
  | x :: t => Some (min_from x t)
  end.

Fixpoint max_from (m : Q) (l : list Q) : Q :=
  match l with
  | [] => m
  | x :: t => max_from (Qmax m x) t
  end.

Definition series_max (s : series Q) : option Q :=
  match values s with
  | [] => None
  | x :: t => Some (max_from x t)
  end.

Definition max_drawdown (s : series Q) : option Q := series_min (drawdown s).

(** ** Recovery time *)

(** [Series.idxmin()]: the label of the first row holding the minimum;
    [ValueError] on an empty series. *)
Fixpoint idxmin_from (bd : date) (b : Q) (s : series Q) : date :=
  match s with
  | [] => bd
  | (d, x) :: t =>
      if Qlt_le_dec x b then idxmin_from d x t else idxmin_from bd b t
  end.

Definition idxmin (s : series Q) : result date :=
  match s with
  | [] => Raise ValueError
  | (d, x) :: t => Ok (idxmin_from d x t)
  end.

(** Label slices [s.loc[lo:hi]] on the sorted daily index: both ends are
    inclusive, and a bound outside the index is not an error. *)
Definition loc_upto {A : Type} (hi : date) (s : series A) : series A :=
  filter (fun r => (fst r <=? hi)%Z) s.

Definition loc_since {A : Type} (lo : date) (s : series A) : series A :=
  filter (fun r => (lo <=? fst r)%Z) s.

Definition loc_between {A : Type} (lo hi : date) (s : series A) : series A :=
  filter (fun r => (lo <=? fst r)%Z && (fst r <=? hi)%Z) s.

(** [post[post >= peak]]: boolean-mask selection. *)
Definition at_least (peak : Q) (s : series Q) : series Q :=
  filter (fun r => Qle_bool peak (snd r)) s.

(** [first_valid_index()]: the first label, [None] when there is no row. *)
Definition first_valid_index {A : Type} (s : series A) : option date :=
  match s with
  | [] => None
  | (d, _) :: _ => Some d
  end.

(** [recovery_time].  A [Timestamp] is always truthy, so [if recover_idx:]
    only tests for [None]; [.days] of the difference of two midnights is the
    difference of their ordinals.  [.max()] of the empty slice would be NaN,
    against which every comparison is false. *)
Definition recovery_time (s : series Q) : result (option Z) :=
  trough <- idxmin (drawdown s) ;;
  let post := loc_since trough s in
  let recover_idx :=
    match series_max (loc_upto trough s) with
    | Some peak_before => first_valid_index (at_least peak_before post)
    | None => None
    end in
  match recover_idx with
  | Some r => Ok (Some (r - trough)%Z)
  | None => Ok None
  end.

(** ** Dates and the crash window *)

Definition is_leap (y : Z) : bool :=
  ((y mod 4 =? 0) && (negb (y mod 100 =? 0) || (y mod 400 =? 0)))%Z.

Definition days_before_year (y : Z) : Z :=
  (let p := y - 1 in p * 365 + p / 4 - p / 100 + p / 400)%Z.

Definition days_before_month (y m : Z) : Z :=
  (nth (Z.to_nat (m - 1)) [0; 31; 59; 90; 120; 151; 181; 212; 243; 273; 304; 334] 0
   + (if (2 <? m) && is_leap y then 1 else 0))%Z.

(** [datetime.date(y, m, d).toordinal()]. *)
Definition toordinal (y m d : Z) : date :=
  (days_before_year y + days_before_month y m + d)%Z.

(** [start = f"{year-1}-01-01"] and [end = f"{year+1}-01-01"], as the days
    the two strings name. *)
Definition window_start (year : Z) : date := toordinal (year - 1) 1 1.
Definition window_end (year : Z) : date := toordinal (year + 1) 1 1.

(** [ser.loc[start:end]]. *)
Definition window_slice {A : Type} (year : Z) (s : series A) : series A :=
  loc_between (window_start year) (window_end year) s.

(** ** The downloaded dataset and [get_adj_close] *)

(** A frame's columns: each is addressed by the tuple of its level keys
    ([nlevels] of them); [columns] is a [MultiIndex] when there are at least
    two levels.  All columns of a pandas frame share one row index; each
    column is kept as a series, and [shared_index] below states that they
    have the same labels. *)
Record frame (A : Type) : Type := Frame {
  nlevels : nat;
  columns : list (list string * series A)
}.

Arguments Frame {A} nlevels columns.
Arguments nlevels {A} f.
Arguments columns {A} f.

(** What an indexing expression evaluates to. *)
Inductive pandas_obj (A : Type) : Type :=
| PSeries (s : series A)
| PFrame (f : frame A).

Arguments PSeries {A} s.
Arguments PFrame {A} f.

Definition is_multiindex {A : Type} (f : frame A) : bool := (2 <=? nlevels f)%nat.

Definition key_eqb (a b : string) : bool := String.eqb a b.

Fixpoint find_column {A : Type} (key : string) (cols : list (list string * series A))
  : option (series A) :=
  match cols with
  | [] => None
  | ([k], s) :: t => if key_eqb k key then Some s else find_column key t
  | _ :: t => find_column key t
  end.

Fixpoint select_level0 {A : Type} (key : string) (cols : list (list string * series A))
  : list (list string * series A) :=
  match cols with
  | [] => []
  | (k :: rest, s) :: t =>
      if key_eqb k key then (rest, s) :: select_level0 key t else select_level0 key t
  | _ :: t => select_level0 key t
  end.

(** [obj[key]] with a string key.  On single-level columns it is the column
    of that name; on a [MultiIndex] it is the sub-frame under that level-0
    key, with the level dropped.  A [Series] over dates has no such label. *)
Definition getitem {A : Type} (o : pandas_obj A) (key : string) : result (pandas_obj A) :=
  match o with
  | PSeries _ => Raise (KeyError key)
  | PFrame f =>
      if is_multiindex f then
        match select_level0 key (columns f) with
        | [] => Raise (KeyError key)
        | sub => Ok (PFrame (Frame (pred (nlevels f)) sub))
        end
      else
        match find_column key (columns f) with
        | Some s => Ok (PSeries s)
        | None => Raise (KeyError key)
        end
  end.

Definition get_adj_close {A : Type} (raw_df : frame A) (ticker : string)
  : result (pandas_obj A) :=
  if is_multiindex raw_df then
    sub <- getitem (PFrame raw_df) ticker ;;
    getitem sub "Close"
  else
    getitem (PFrame raw_df) "Close".

(** ** Sector performance *)

(** [ser.iloc[0]]. *)
Definition iloc0 {A : Type} (s : series A) : result A :=
  match s with
  | [] => Raise IndexError
  | (_, x) :: _ => Ok x
  end.

(** [ser / ser.iloc[0]]. *)
Definition normalize (ser : series Q) : result (series Q) :=
  x0 <- iloc0 ser ;;
  Ok (map (fun r => (fst r, snd r / x0)) ser).

(** A frame of float columns over one row index; [None] is NaN. *)
Record dataframe : Type := DataFrame {
  df_index : list date;
  df_columns : list (string * list (option Q))
}.

Fixpoint lookup {A : Type} (d : date) (s : series A) : option A :=
  match s with
  | [] => None
  | (d', x) :: t => if (d' =? d)%Z then Some x else lookup d t
  end.

(** [s.reindex(idx)]: the value at each label of [idx], NaN where [s] has
    no such label. *)
Definition reindex (idx : list date) (s : series (option Q)) : list (option Q) :=
  map (fun d => match lookup d s with Some c => c | None => None end) idx.

(** [df[name] = s] for a new column name.  A frame whose row index is
    empty first takes the index of a non-empty [s] (its columns, if any,
    become NaN on it); then [s] is aligned on the frame's index. *)
Definition setitem (df : dataframe) (name : string) (s : series (option Q)) : dataframe :=
  let df0 :=
    match df_index df, s with
    | [], _ :: _ =>
        DataFrame (index s)
                  (map (fun c => (fst c, map (fun _ => None) (index s))) (df_columns df))
    | _, _ => df
    end in
  DataFrame (df_index df0) (df_columns df0 ++ [(name, reindex (df_index df0) s)]).

Definition some_values (s : series Q) : series (option Q) :=
  map (fun r => (fst r, Some (snd r))) s.

(** The loop filling [df_perf]; [closes] gives, in the order of [SECTORS],
    each sector's name with the series [get_adj_close] returned for it. *)
Fixpoint df_perf_loop (year : Z) (closes : list (string * series Q)) (df_perf : dataframe)
  : result dataframe :=
  match closes with
  | [] => Ok df_perf
  | (name, close) :: rest =>
      let ser := window_slice year close in
      col <- normalize ser ;;
      df_perf_loop year rest (setitem df_perf name (some_values col))
  end.

Definition df_perf (year : Z) (closes : list (string * series Q)) : result dataframe :=
  df_perf_loop year closes (DataFrame [] []).

(** ** Returns and rolling volatility *)

(** [Series.pct_change()]: [s[t] / s[t-1] - 1], NaN on the first row. *)
Fixpoint pct_change_from (prev : Q) (s : series Q) : series (option Q) :=
  match s with
  | [] => []
  | (d, x) :: t => (d, Some (x / prev - 1)) :: pct_change_from x t
  end.

Definition pct_change (s : series Q) : series (option Q) :=
  match s with
  | [] => []
  | (d, x) :: t => (d, None) :: pct_change_from x t
  end.

(** [Series.dropna()]. *)
Fixpoint dropna {A : Type} (s : series (option A)) : series A :=
  match s with
  | [] => []
  | (d, Some x) :: t => (d, x) :: dropna t
  | (_, None) :: t => dropna t
  end.

(** [ret = idx_ser.pct_change().dropna()]. *)
Definition ret (idx_ser : series Q) : series Q := dropna (pct_change idx_ser).

Fixpoint Qsum (l : list Q) : Q :=
  match l with
  | [] => 0
  | x :: t => x + Qsum t
  end.

Definition Qcount {A : Type} (l : list A) : Q := inject_Z (Z.of_nat (length l)).

Definition mean (l : list Q) : Q := Qsum l / Qcount l.

(** Sum of squared deviations from the mean. *)
Definition ssqdm (l : list Q) : Q :=
  let m := mean l in Qsum (map (fun x => (x - m) * (x - m)) l).

Definition var (ddof : nat) (l : list Q) : Q :=
  ssqdm l / inject_Z (Z.of_nat (length l - ddof)).

(** A number obtained through a square root is kept in closed form:
    [Sqrt q] is the non-negative real square root of [q]. *)
Inductive surd : Type := Sqrt (radicand : Q).

Definition std (ddof : nat) (l : list Q) : surd := Sqrt (var ddof l).

(** The observations a trailing window of [window] rows ending at row [i]
    covers: rows [max 0 (i + 1 - window)] to [i]. *)
Definition window_at {A : Type} (window i : nat) (xs : list A) : list A :=
  let start := (i + 1 - window)%nat in
  firstn (i + 1 - start) (skipn start xs).

(** [s.rolling(window).std()]: [min_periods] defaults to [window] and
    [ddof] to 1; a row whose window holds fewer than [min_periods]
    observations, or no more than [ddof], is NaN. *)
Definition rolling_std (window : nat) (s : series Q) : series (option surd) :=
  let xs := values s in
  combine (index s)
    (map (fun i =>
            let w := window_at window i xs in
            if (window <=? length w)%nat && (1 <? length w)%nat
            then Some (std 1 w) else None)
         (seq 0 (length s))).

(** [vol30 = ret.rolling(window=30).std()]. *)
Definition vol30 (r : series Q) : series (option surd) := rolling_std 30 r.

(** ** Correlation *)

(** Rows on which both columns hold a number. *)
Fixpoint pairwise_obs (xs ys : list (option Q)) : list (Q * Q) :=
  match xs, ys with
  | Some x :: xs', Some y :: ys' => (x, y) :: pairwise_obs xs' ys'
  | _ :: xs', _ :: ys' => pairwise_obs xs' ys'
  | _, _ => []
  end.

(** A correlation coefficient in closed form: [Over c (Sqrt q)] is the real
    number [c / sqrt q]. *)
Inductive ratio : Type := Over (num : Q) (den : surd).

(** Pearson's coefficient of the observations, as [DataFrame.corr] computes
    it with [min_periods = 1]: NaN without any observation and NaN when the
    divisor [sqrt (ssx * ssy)] is zero. *)
Definition pearson (obs : list (Q * Q)) : option ratio :=
  if (length obs <? 1)%nat then None
  else
    let mx := mean (map fst obs) in
    let my := mean (map snd obs) in
    let covxy := Qsum (map (fun p => (fst p - mx) * (snd p - my)) obs) in
    let ssx := Qsum (map (fun p => (fst p - mx) * (fst p - mx)) obs) in
    let ssy := Qsum (map (fun p => (snd p - my) * (snd p - my)) obs) in
    if Qeq_bool (ssx * ssy) 0 then None
    else Some (Over covxy (Sqrt (ssx * ssy))).

(** [df.corr()]: one row per column, one entry per column. *)
Definition corr (df : dataframe) : list (list (option ratio)) :=
  map (fun cx => map (fun cy => pearson (pairwise_obs (snd cx) (snd cy)))
                     (df_columns df))
      (df_columns df).

(** [corr_df = pd.DataFrame({"S&P 500": ret})], then one
    [corr_df[name] = sec_ret] per sector. *)
Definition corr_df (r : series Q) (sec_rets : list (string * series (option Q)))
  : dataframe :=
  fold_left (fun df ns => setitem df (fst ns) (snd ns)) sec_rets
            (DataFrame (index r) [("S&P 500"%string, map Some (values r))]).

(** [sec_ret] of one sector. *)
Definition sec_ret (year : Z) (close : series Q) : series (option Q) :=
  pct_change (window_slice year close).

(** ** Summary line *)

(** Truth value of [rt]: [None] and the integer 0 are false. *)
Definition truthy (rt : option Z) : bool :=
  match rt with
  | Some n => negb (n =? 0)%Z
  | None => false
  end.

Definition str_int (n : Z) : string := NilZero.string_of_int (Z.to_int n).

(** [f"- **Recovery Time:** {rt if rt else 'Not recovered'} days"]. *)
Definition recovery_line (rt : option Z) : string :=
  ("- **Recovery Time:** "
   ++ (match rt with
       | Some n => if truthy rt then str_int n else "Not recovered"
       | None => "Not recovered"
       end)
   ++ " days")%string.

(** [rt = recovery_time(idx_ser)] followed by the summary line. *)
Definition recovery_report (idx_ser : series Q) : result string :=
  rt <- recovery_time idx_ser ;;
  Ok (recovery_line rt).

(** ** Specification-side definitions *)

(** Prices are strictly positive. *)
Definition positive (s : series Q) : Prop := Forall (fun x => 0 < x) (values s).

(** Dates are strictly increasing. *)
Fixpoint increasing (l : list date) : Prop :=
  match l with
  | [] => True
  | d :: t => Forall (fun d' => (d < d')%Z) t /\ increasing t
  end.

(** Prices never go down. *)
Fixpoint non_decreasing (l : list Q) : Prop :=
  match l with
  | [] => True
  | x :: t => match t with [] => True | y :: _ => x <= y end /\ non_decreasing t
  end.

(** The running maximum of the specification: [M s t = max (series[0..t])]. *)
Definition M (s : series Q) (t : nat) : option Q := series_max (firstn (S t) s).

(** The drawdown of the specification at row [t]:
    [(series[t] - M t) / M t]. *)
Definition dd_at (s : series Q) (t : nat) : option Q :=
  match nth_error (values s) t, M s t with
  | Some x, Some m => Some ((x - m) / m)
  | _, _ => None
  end.

(** The two dataset shapes of the data source: a flat table has one level
    of column keys (the fields of one instrument), a grouped one has two
    (instrument, then field). *)
Inductive shape : Type := Flat | Grouped | OtherShape.

Definition shape_of {A : Type} (f : frame A) : shape :=
  match nlevels f with
  | 1%nat => Flat
  | 2%nat => Grouped
  | _ => OtherShape
  end.

Fixpoint assoc {B : Type} (key : string) (l : list (string * B)) : option B :=
  match l with
  | [] => None
  | (k, b) :: t => if key_eqb k key then Some b else assoc key t
  end.

(** The flat table of one instrument's fields. *)
Definition flat_of {A : Type} (fields : list (string * series A)) : frame A :=
  Frame 1 (map (fun fs => ([fst fs], snd fs)) fields).

(** The grouped table of several instruments, each with its fields. *)
Definition grouped_of {A : Type} (data : list (string * list (string * series A)))
  : frame A :=
  Frame 2 (flat_map (fun tf => map (fun fs => ([fst tf; fst fs], snd fs)) (snd tf)) data).

(** The return a series holds on a date, if it holds one. *)
Definition defined_at (d : date) (s : series (option Q)) : option Q :=
  match lookup d s with
  | Some c => c
  | None => None
  end.

(** The pairs of returns two series hold on the dates of [ds] where both
    hold one. *)
Definition obs_on (ds : list date) (sx sy : series (option Q)) : list (Q * Q) :=
  flat_map (fun d => match defined_at d sx, defined_at d sy with
                     | Some x, Some y => [(x, y)]
                     | _, _ => []
                     end) ds.

(** Pairwise deletion: each pair of series is compared on the dates of
    [ds] where these two hold a return. *)
Definition corr_pairwise (ds : list date) (all : list (series (option Q)))
  : list (list (option ratio)) :=
  map (fun sx => map (fun sy => pearson (obs_on ds sx sy)) all) all.

(** The dates of [ds] on which every series holds a return. *)
Definition common_dates (ds : list date) (all : list (series (option Q))) : list date :=
  filter (fun d => forallb (fun s => match defined_at d s with
                                     | Some _ => true
                                     | None => false
                                     end) all) ds.

(** Inner join: every pair of series is compared on the one set of dates
    all the series share. *)
Definition corr_inner_join (ds : list date) (all : list (series (option Q)))
  : list (list (option ratio)) :=
  corr_pairwise (common_dates ds all) all.

(** The scenario series [100, 110, 90, 95, 130], on the trading days from
    Monday 2 March 2020 to Friday 6 March 2020. *)
Definition scenario : series Q :=
  [ (toordinal 2020 3 2, 100); (toordinal 2020 3 3, 110); (toordinal 2020 3 4, 90);
    (toordinal 2020 3 5, 95); (toordinal 2020 3 6, 130) ].

(** A series that only rises, one that only falls, and the rows a market
    open on New Year's Day 2009 would leave. *)
Definition rising : series Q :=
  [ (toordinal 2020 3 2, 100); (toordinal 2020 3 3, 110) ].

Definition falling : series Q :=
  [ (toordinal 2020 3 2, 100); (toordinal 2020 3 3, 90); (toordinal 2020 3 4, 80) ].

Definition new_year_2009 : series Q :=
  [ (toordinal 2008 12 31, 903); (toordinal 2009 1 1, 905); (toordinal 2009 1 2, 931) ].

(** A table whose columns carry three levels of keys: instrument, field
    and bar interval. *)
Definition three_level : frame Q :=
  Frame 3 [ (["XLK"; "Close"; "1d"], scenario);
            (["XLK"; "Close"; "1wk"], rising);
            (["XLV"; "Close"; "1d"], falling) ]%string.

(** Returns of the index and of the five sectors over one week, where
    Energy has no return before the Friday and Financials none after the
    Wednesday: no day carries a return of all six. *)
Definition ragged_ret : series Q :=
  [ (toordinal 2020 3 3, 1 # 100); (toordinal 2020 3 4, - (2 # 100));
    (toordinal 2020 3 5, 3 # 100); (toordinal 2020 3 6, 1 # 100) ].

Definition ragged_sectors : list (string * series (option Q)) :=
  [ ("Technology"%string,
     [ (toordinal 2020 3 2, None); (toordinal 2020 3 3, Some (2 # 100));
       (toordinal 2020 3 4, Some (- (1 # 100))); (toordinal 2020 3 5, Some (2 # 100));
       (toordinal 2020 3 6, Some (3 # 100)) ]);
    ("Healthcare"%string,
     [ (toordinal 2020 3 2, None); (toordinal 2020 3 3, Some (1 # 100));
       (toordinal 2020 3 4, Some (1 # 100)); (toordinal 2020 3 5, Some (- (1 # 100)));
       (toordinal 2020 3 6, Some (2 # 100)) ]);
    ("Energy"%string,
     [ (toordinal 2020 3 2, None); (toordinal 2020 3 3, None);
       (toordinal 2020 3 4, None); (toordinal 2020 3 5, None);
       (toordinal 2020 3 6, Some (5 # 100)) ]);
    ("Financials"%string,
     [ (toordinal 2020 3 2, None); (toordinal 2020 3 3, Some (1 # 100));
       (toordinal 2020 3 4, Some (- (3 # 100))); (toordinal 2020 3 5, None);
       (toordinal 2020 3 6, None) ]);
    ("Consumer Discretionary"%string,
     [ (toordinal 2020 3 2, None); (toordinal 2020 3 3, Some (3 # 100));
       (toordinal 2020 3 4, Some (- (2 # 100))); (toordinal 2020 3 5, Some (1 # 100));
       (toordinal 2020 3 6, Some (1 # 100)) ]) ].

(** Thirty-one daily returns, 0.00, 0.01, ..., 0.30. *)
Definition ramp : series Q :=
  map (fun k => ((toordinal 2020 1 1 + Z.of_nat k)%Z, inject_Z (Z.of_nat k) / 100))
      (seq 0 31).

(** Prices go down at every step. *)
Fixpoint strictly_decreasing (l : list Q) : Prop :=
  match l with
  | [] => True
  | x :: t => match t with [] => True | y :: _ => y < x end /\ strictly_decreasing t
  end.

(** Every column of a frame has one cell per row of the index. *)
Definition rectangular (df : dataframe) : Prop :=
  Forall (fun c => length (snd c) = length (df_index df)) (df_columns df).

(** ** The statistics and the sector loop over binary64 *)

(** pandas holds prices as IEEE binary64 numbers.  [F64] is the code of
    [max_drawdown], [recovery_time] and the sector loop over the kernel's
    binary64 floats: subtraction and division round as numpy's do, a cell
    can be NaN or infinite, and every comparison with NaN is false.  The
    reductions skip NaN as pandas does by default. *)
Module F64.

Local Open Scope float_scope.

(** [np.maximum] and [np.minimum] on two numbers. *)
Definition fmax (a b : float) : float := if a <? b then b else a.
Definition fmin (a b : float) : float := if b <? a then b else a.

(** [series.cummax()]: NaN cells count as -inf in the running maximum and
    are NaN in the result. *)
Definition fill_low (x : float) : float := if is_nan x then neg_infinity else x.

Fixpoint cummax_from (m : float) (s : series float) : series float :=
  match s with
  | [] => []
  | (d, x) :: t =>
      let m' := fmax m (fill_low x) in
      (d, if is_nan x then nan else m') :: cummax_from m' t
  end.

Definition cummax (s : series float) : series float :=
  match s with
  | [] => []
  | (d, x) :: t => (d, if is_nan x then nan else x) :: cummax_from (fill_low x) t
  end.

(** [(series - roll_max) / roll_max], row by row. *)
Fixpoint rel_diff (s m : series float) : series float :=
  match s, m with
  | (d, x) :: s', (_, r) :: m' => (d, (x - r) / r) :: rel_diff s' m'
  | _, _ => []
  end.

Definition drawdown (s : series float) : series float := rel_diff s (cummax s).

(** The cells that hold a number. *)
Definition valid (l : list float) : list float :=
  filter (fun x => negb (is_nan x)) l.

Fixpoint min_from (m : float) (l : list float) : float :=
  match l with
  | [] => m
  | x :: t => min_from (fmin m x) t
  end.

Fixpoint max_from (m : float) (l : list float) : float :=
  match l with
  | [] => m
  | x :: t => max_from (fmax m x) t
  end.

(** [Series.min()] and [Series.max()]: over the cells that hold a number;
    NaN when there is none. *)
Definition series_min (s : series float) : float :=
  match valid (values s) with
  | [] => nan
  | x :: t => min_from x t
  end.

Definition series_max (s : series float) : float :=
  match valid (values s) with
  | [] => nan
  | x :: t => max_from x t
  end.

Definition max_drawdown (s : series float) : float := series_min (drawdown s).

(** [Series.idxmin()]: NaN cells count as +inf, the first row holding the
    least value is named.  An empty series raises [ValueError]; so does, in
    current pandas, a series of NaN only (earlier versions returned NaN
    for it). *)
Definition fill_high (x : float) : float := if is_nan x then infinity else x.

Fixpoint idxmin_from (bd : date) (b : float) (s : series float) : date :=
  match s with
  | [] => bd
  | (d, x) :: t =>
      if fill_high x <? b then idxmin_from d (fill_high x) t
      else idxmin_from bd b t
  end.

Definition idxmin (s : series float) : result date :=
  match valid (values s), s with
  | _ :: _, (d, x) :: t => Ok (idxmin_from d (fill_high x) t)
  | _, _ => Raise ValueError
  end.

(** [post[post >= peak]]. *)
Definition at_least (peak : float) (s : series float) : series float :=
  filter (fun r => peak <=? snd r) s.

(** [first_valid_index()]: the label of the first cell that holds a
    number. *)
Fixpoint first_valid_index (s : series float) : option date :=
  match s with
  | [] => None
  | (d, x) :: t => if is_nan x then first_valid_index t else Some d
  end.

Definition recovery_time (s : series float) : result (option Z) :=
  trough <- idxmin (drawdown s) ;;
  let peak_before := series_max (loc_upto trough s) in
  let post := loc_since trough s in
  match first_valid_index (at_least peak_before post) with
  | Some r => Ok (Some (r - trough)%Z)
  | None => Ok None
  end.

(** [ser / ser.iloc[0]]. *)
Definition normalize (ser : series float) : result (series float) :=
  x0 <- iloc0 ser ;;
  Ok (map (fun r => (fst r, snd r / x0)) ser).

(** A frame of binary64 columns over one row index. *)
Record dataframe : Type := DataFrame {
  df_index : list date;
  df_columns : list (string * list float)
}.

Definition reindex (idx : list date) (s : series float) : list float :=
  map (fun d => match lookup d s with Some x => x | None => nan end) idx.

Definition setitem (df : dataframe) (name : string) (s : series float) : dataframe :=
  let df0 :=
    match df_index df, s with
    | [], _ :: _ =>
        DataFrame (index s)
                  (map (fun c => (fst c, map (fun _ => nan) (index s))) (df_columns df))
    | _, _ => df
    end in
  DataFrame (df_index df0) (df_columns df0 ++ [(name, reindex (df_index df0) s)]).

(** The loop of lines 83 to 86; [closes] gives, in the order of [SECTORS],
    each sector's name with the series [get_adj_close] returned for it. *)
Fixpoint df_perf_loop (year : Z) (closes : list (string * series float))
         (df_perf : dataframe) : result dataframe :=
  match closes with
  | [] => Ok df_perf
  | (name, close) :: rest =>
      let ser := window_slice year close in
      col <- normalize ser ;;
      df_perf_loop year rest (setitem df_perf name col)
  end.

Definition df_perf (year : Z) (closes : list (string * series float))
  : result dataframe :=
  df_perf_loop year closes (DataFrame [] []).

(** Lines 68 to 86 in the order the script runs them: the index slice, its
    two statistics, then the sector loop.  [idx_close] is the series
    [get_adj_close] returned for [INDEX]. *)
Definition report (year : Z) (idx_close : series float)
           (closes : list (string * series float))
  : result (float * option Z * dataframe) :=
  let idx_ser := window_slice year idx_close in
  let dd := max_drawdown idx_ser in
  rt <- recovery_time idx_ser ;;
  df <- df_perf year closes ;;
  Ok (dd, rt, df).

(** *** Specification side *)

(** Prices are strictly positive. *)
Definition positive (s : series float) : Prop :=
  Forall (fun x => (0 <? x) = true) (values s).

(** Every cell holds a number. *)
Definition numbers (l : list float) : Prop :=
  Forall (fun x => is_nan x = false) l.

(** The running maximum of the specification, [max (series[0..t])]. *)
Definition M (s : series float) (t : nat) : float := series_max (firstn (S t) s).

(** The drawdown of row [t] as the code computes it: the rounded
    difference divided, with rounding, by the running maximum. *)
Definition dd_at (s : series float) (t : nat) : option float :=
  match nth_error (values s) t with
  | Some x => Some ((x - M s t) / M s t)
  | None => None
  end.


End F64.

(** The columns of one pandas frame share its row index. *)
Definition shared_index {A : Type} (idx : list date) (f : frame A) : Prop :=
  Forall (fun c => index (snd c) = idx) (columns f).



(** The index and a sector over one row index of three days in the window of
    2020; the sector has no observation: all its cells are NaN. *)
Definition index_close : series float :=
  [ (toordinal 2020 3 2, 100%float); (toordinal 2020 3 3, 90%float);
    (toordinal 2020 3 4, 95%float) ].

Definition unlisted_close : series float :=
  [ (toordinal 2020 3 2, nan); (toordinal 2020 3 3, nan); (toordinal 2020 3 4, nan) ].

(** The two as columns of one grouped dataset. *)
Definition dataset64 : frame float :=
  Frame 2 [ (["^GSPC"; "Close"], index_close); (["XLK"; "Close"], unlisted_close) ]%string.

(** * Properties *)

(** ** Rational arithmetic of a relative difference *)

Lemma rel_diff_bounds (x m : Q) :
  0 < x -> x <= m -> -1 < (x - m) / m /\ (x - m) / m <= 0.
Proof.
  intros Hx Hm.
  assert (Hpos : 0 < m) by lra.
  split.
  - apply Qlt_shift_div_l; [exact Hpos | lra].
  - apply Qle_shift_div_r; [exact Hpos | lra].
Qed.

Lemma rel_diff_zero (x m : Q) :
  0 < m -> ((x - m) / m == 0 <-> m == x).
Proof.
  intros Hpos. split; intros H.
  - unfold Qdiv in H. apply Qmult_integral in H. destruct H as [H | H].
    + lra.
    + assert (0 < / m) by (apply Qinv_lt_0_compat; exact Hpos). lra.
  - unfold Qdiv. setoid_replace (x - m) with 0 by lra. lra.
Qed.

(** ** Minimum and maximum of a list *)

Lemma Qmin_cases (a b : Q) : (Qmin a b = a /\ a <= b) \/ (Qmin a b = b /\ b <= a).
Proof.
  unfold Qmin, GenericMinMax.gmin.
  destruct (a ?= b) eqn:E.
  - left. split; [reflexivity | apply Qeq_alt in E; lra].
  - left. split; [reflexivity | apply Qlt_alt in E; lra].
  - right. split; [reflexivity | apply Qgt_alt in E; lra].
Qed.

Lemma Qmax_cases (a b : Q) : (Qmax a b = a /\ b <= a) \/ (Qmax a b = b /\ a <= b).
Proof.
  unfold Qmax, GenericMinMax.gmax.
  destruct (a ?= b) eqn:E.
  - left. split; [reflexivity | apply Qeq_alt in E; lra].
  - right. split; [reflexivity | apply Qlt_alt in E; lra].
  - left. split; [reflexivity | apply Qgt_alt in E; lra].
Qed.

Lemma min_from_lower (l : list Q) : forall m,
  min_from m l <= m /\ forall x, In x l -> min_from m l <= x.
Proof.
  induction l as [| y l IH]; intros m; simpl.
  - split; [lra | intros x []].
  - destruct (IH (Qmin m y)) as [H1 H2].
    destruct (Qmin_cases m y) as [[E Hle] | [E Hle]]; rewrite E in *.
    + split; [exact H1 |]. intros x [<- | Hin]; [lra | auto].
    + split; [lra |]. intros x [<- | Hin]; [exact H1 | auto].
Qed.

Lemma min_from_attained (l : list Q) : forall m, In (min_from m l) (m :: l).
Proof.
  induction l as [| y l IH]; intros m; simpl.
  - left; reflexivity.
  - destruct (IH (Qmin m y)) as [H | H].
    + destruct (Qmin_cases m y) as [[E _] | [E _]]; rewrite E in H |- *;
        simpl; auto.
    + auto.
Qed.

Lemma max_from_upper (l : list Q) : forall m,
  m <= max_from m l /\ forall x, In x l -> x <= max_from m l.
Proof.
  induction l as [| y l IH]; intros m; simpl.
  - split; [lra | intros x []].
  - destruct (IH (Qmax m y)) as [H1 H2].
    destruct (Qmax_cases m y) as [[E Hle] | [E Hle]]; rewrite E in *.
    + split; [exact H1 |]. intros x [<- | Hin]; [lra | auto].
    + split; [lra |]. intros x [<- | Hin]; [exact H1 | auto].
Qed.

Lemma max_from_attained (l : list Q) : forall m, In (max_from m l) (m :: l).
Proof.
  induction l as [| y l IH]; intros m; simpl.
  - left; reflexivity.
  - destruct (IH (Qmax m y)) as [H | H].
    + destruct (Qmax_cases m y) as [[E _] | [E _]]; rewrite E in H |- *;
        simpl; auto.
    + auto.
Qed.

(** ** The drawdown series, row by row *)

Lemma values_firstn {A : Type} (n : nat) (s : series A) :
  values (firstn n s) = firstn n (values s).
Proof. unfold values. symmetry. apply firstn_map. Qed.

Lemma rel_diff_cummax_from_nth (s : series Q) : forall m t x,
  nth_error (values s) t = Some x ->
  nth_error (values (rel_diff s (cummax_from m s))) t
  = Some ((x - max_from m (firstn (S t) (values s)))
          / max_from m (firstn (S t) (values s))).
Proof.
  induction s as [| [d y] s IH]; intros m t x Hx.
  - destruct t; discriminate Hx.
  - destruct t as [| t].
    + simpl in Hx. injection Hx as ->. reflexivity.
    + simpl in Hx. apply (IH (Qmax m y)) in Hx. exact Hx.
Qed.

Lemma rel_diff_cummax_from_length (s : series Q) : forall m,
  length (rel_diff s (cummax_from m s)) = length s.
Proof.
  induction s as [| [d y] s IH]; intros m; simpl; [reflexivity |].
  f_equal. apply IH.
Qed.

Lemma rel_diff_cummax_from_index (s : series Q) : forall m,
  index (rel_diff s (cummax_from m s)) = index s.
Proof.
  induction s as [| [d y] s IH]; intros m; simpl; [reflexivity |].
  f_equal. apply IH.
Qed.

Lemma drawdown_length (s : series Q) : length (drawdown s) = length s.
Proof.
  destruct s as [| [d x] s]; [reflexivity |].
  unfold drawdown. simpl. f_equal. apply rel_diff_cummax_from_length.
Qed.

Lemma drawdown_index (s : series Q) : index (drawdown s) = index s.
Proof.
  destruct s as [| [d x] s]; [reflexivity |].
  unfold drawdown. simpl. f_equal. apply rel_diff_cummax_from_index.
Qed.

Lemma M_cons (d : date) (x0 : Q) (s : series Q) (t : nat) :
  M ((d, x0) :: s) t = Some (max_from x0 (firstn t (values s))).
Proof.
  unfold M, series_max. simpl. rewrite values_firstn. reflexivity.
Qed.

Lemma drawdown_nth (s : series Q) (t : nat) (x : Q) :
  nth_error (values s) t = Some x ->
  exists m, M s t = Some m
            /\ nth_error (values (drawdown s)) t = Some ((x - m) / m).
Proof.
  destruct s as [| [d x0] s]; intros Hx.
  - destruct t; discriminate Hx.
  - rewrite M_cons. eexists. split; [reflexivity |].
    destruct t as [| t].
    + simpl in Hx. injection Hx as ->. reflexivity.
    + simpl in Hx. unfold drawdown. simpl.
      apply (rel_diff_cummax_from_nth s x0) in Hx. exact Hx.
Qed.

(** [M s t] is the largest of the prices of rows 0 to [t]. *)
Lemma M_is_max (s : series Q) (t : nat) (m : Q) :
  M s t = Some m ->
  (forall u x, (u <= t)%nat -> nth_error (values s) u = Some x -> x <= m)
  /\ (exists u, (u <= t)%nat /\ nth_error (values s) u = Some m).
Proof.
  destruct s as [| [d x0] s]; [discriminate |].
  rewrite M_cons. intros H. injection H as <-.
  destruct (max_from_upper (firstn t (values s)) x0) as [H0 Hin].
  split.
  - intros u x Hu Hx. destruct u as [| u]; simpl in Hx.
    + injection Hx as <-. exact H0.
    + apply Hin.
      assert (Hf : nth_error (firstn t (values s)) u = Some x).
      { rewrite nth_error_firstn.
        destruct (Nat.ltb_spec u t) as [_ | Hge]; [exact Hx | lia]. }
      eapply nth_error_In; exact Hf.
  - destruct (max_from_attained (firstn t (values s)) x0) as [E | Hi].
    + exists 0%nat. split; [lia |]. simpl. rewrite <- E. reflexivity.
    + apply In_nth_error in Hi. destruct Hi as [u Hu].
      assert (Hlt : (u < t)%nat).
      { assert (Hl : (u < length (firstn t (values s)))%nat)
          by (apply nth_error_Some; rewrite Hu; discriminate).
        rewrite length_firstn in Hl. lia. }
      exists (S u). split; [lia |]. simpl.
      rewrite nth_error_firstn in Hu.
      destruct (Nat.ltb_spec u t) as [_ | Hge]; [exact Hu | lia].
Qed.

Lemma positive_nth (s : series Q) (t : nat) (x : Q) :
  positive s -> nth_error (values s) t = Some x -> 0 < x.
Proof.
  unfold positive. intros Hp Hx. rewrite Forall_forall in Hp.
  apply Hp. eapply nth_error_In; exact Hx.
Qed.

(** Under positive prices a row's price is at most its running maximum,
    which is positive. *)
Lemma M_bounds (s : series Q) (t : nat) (x m : Q) :
  positive s -> nth_error (values s) t = Some x -> M s t = Some m ->
  0 < x /\ x <= m.
Proof.
  intros Hp Hx HM. split; [eapply positive_nth; eauto |].
  destruct (M_is_max s t m HM) as [Hup _]. apply (Hup t x); [lia | exact Hx].
Qed.

Lemma drawdown_value (s : series Q) (v : Q) :
  In v (values (drawdown s)) ->
  exists t x m, nth_error (values s) t = Some x /\ M s t = Some m
                /\ nth_error (values (drawdown s)) t = Some v
                /\ v = (x - m) / m.
Proof.
  intros Hin. apply In_nth_error in Hin. destruct Hin as [t Ht].
  assert (Hlt : (t < length (values s))%nat).
  { assert (Hl : (t < length (values (drawdown s)))%nat)
      by (apply nth_error_Some; rewrite Ht; discriminate).
    unfold values in *. rewrite length_map in *. rewrite drawdown_length in Hl.
    exact Hl. }
  destruct (nth_error (values s) t) as [x |] eqn:Hx.
  - destruct (drawdown_nth s t x Hx) as [m [HM Hd]].
    exists t, x, m. repeat split; auto. congruence.
  - apply nth_error_None in Hx. lia.
Qed.

(** ** C1: [max_drawdown] *)

Ltac prove_positive :=
  unfold positive; simpl; repeat (constructor; [reflexivity |]); constructor.



(** ** C7 and C10: normalisation of a sector series *)

Lemma normalize_cons (d0 : date) (x0 : Q) (s : series Q) :
  normalize ((d0, x0) :: s)
  = Ok (map (fun r => (fst r, snd r / x0)) ((d0, x0) :: s)).
Proof. reflexivity. Qed.

(** C7.  On a non-empty series of positive prices the normalisation
    succeeds, keeps the dates, and divides every price by the first one; its
    first value is 1. *)
Theorem normalize_spec (s : series Q) :
  s <> [] -> positive s ->
  exists x0 s',
    nth_error (values s) 0 = Some x0
    /\ normalize s = Ok s'
    /\ index s' = index s
    /\ (forall t x, nth_error (values s) t = Some x ->
                    nth_error (values s') t = Some (x / x0))
    /\ (exists y, nth_error (values s') 0 = Some y /\ y == 1).
Proof.
  intros Hne Hp. destruct s as [| [d0 x0] s]; [contradiction |].
  exists x0. eexists. split; [reflexivity |].
  split; [apply normalize_cons |].
  assert (Hx0 : 0 < x0) by (apply (positive_nth _ 0%nat x0 Hp); reflexivity).
  split; [| split].
  - unfold index. rewrite map_map. reflexivity.
  - intros t x Hx. unfold values in *. rewrite map_map.
    rewrite nth_error_map in *.
    destruct (nth_error ((d0, x0) :: s) t) as [[d y] |]; [| discriminate].
    simpl in *. injection Hx as ->. reflexivity.
  - eexists. split; [reflexivity |]. simpl. field. lra.
Qed.

Lemma normalize_spec_witness :
  scenario <> [] /\ positive scenario
  /\ exists s', normalize scenario = Ok s'
                /\ nth_error (values s') 2 = Some (90 / 100).
Proof.
  assert (Hne : scenario <> []) by discriminate.
  assert (Hp : positive scenario) by prove_positive.
  split; [exact Hne |]. split; [exact Hp |].
  destruct (normalize_spec scenario Hne Hp) as [x0 [s' [H0 [Hn [_ [Hv _]]]]]].
  exists s'. split; [exact Hn |].
  injection H0 as <-. apply Hv. reflexivity.
Defined.

(** *** The sector loop on one row index *)

Lemma find_column_In {A : Type} (key : string) (cols : list (list string * series A))
      (s : series A) :
  find_column key cols = Some s -> In s (map snd cols).
Proof.
  induction cols as [| [ks c] cols IH]; [discriminate |].
  simpl. destruct ks as [| k [| k' ks]].
  - intros H. right. apply IH. exact H.
  - destruct (key_eqb k key).
    + intros H. injection H as ->. left. reflexivity.
    + intros H. right. apply IH. exact H.
  - intros H. right. apply IH. exact H.
Qed.

Lemma select_level0_In {A : Type} (key : string) (cols : list (list string * series A))
      (s : series A) :
  In s (map snd (select_level0 key cols)) -> In s (map snd cols).
Proof.
  induction cols as [| [ks c] cols IH]; [intros [] |].
  simpl. destruct ks as [| k ks].
  - intros H. right. apply IH. exact H.
  - destruct (key_eqb k key).
    + intros [E | H]; [left; exact E | right; apply IH; exact H].
    + intros H. right. apply IH. exact H.
Qed.

(** A series [get_adj_close] returns is one of the frame's columns. *)
Lemma get_adj_close_column {A : Type} (raw_df : frame A) (ticker : string) (s : series A) :
  get_adj_close raw_df ticker = Ok (PSeries s) -> In s (map snd (columns raw_df)).
Proof.
  unfold get_adj_close. destruct (is_multiindex raw_df) eqn:Hm.
  - assert (Hg : getitem (PFrame raw_df) ticker
                 = match select_level0 ticker (columns raw_df) with
                   | [] => Raise (KeyError ticker)
                   | sub => Ok (PFrame (Frame (pred (nlevels raw_df)) sub))
                   end)
      by (unfold getitem; rewrite Hm; reflexivity).
    rewrite Hg.
    destruct (select_level0 ticker (columns raw_df)) as [| c sub] eqn:Hs;
      [discriminate |].
    unfold bind, getitem.
    destruct (is_multiindex (Frame (pred (nlevels raw_df)) (c :: sub))).
    + destruct (select_level0 "Close" (columns (Frame (pred (nlevels raw_df)) (c :: sub))));
        discriminate.
    + destruct (find_column "Close" (columns (Frame (pred (nlevels raw_df)) (c :: sub))))
        as [s' |] eqn:Hf; [| discriminate].
      intros H. injection H as ->.
      apply (select_level0_In ticker). rewrite Hs.
      apply (find_column_In "Close"). exact Hf.
  - unfold getitem. rewrite Hm.
    destruct (find_column "Close" (columns raw_df)) as [s' |] eqn:Hf; [| discriminate].
    intros H. injection H as ->. apply (find_column_In "Close"). exact Hf.
Qed.

Lemma get_adj_close_index {A : Type} (idx : list date) (raw_df : frame A)
      (ticker : string) (s : series A) :
  shared_index idx raw_df -> get_adj_close raw_df ticker = Ok (PSeries s) ->
  index s = idx.
Proof.
  intros Hsh Hg. apply get_adj_close_column in Hg.
  apply in_map_iff in Hg. destruct Hg as [c [<- Hin]].
  unfold shared_index in Hsh. rewrite Forall_forall in Hsh. apply Hsh. exact Hin.
Qed.

(** Series over one row index have their window slices over one index. *)
Lemma window_slice_same_index {A B : Type} (year : Z) (s1 : series A) :
  forall s2 : series B,
    index s1 = index s2 ->
    index (window_slice year s1) = index (window_slice year s2).
Proof.
  unfold window_slice, loc_between.
  induction s1 as [| [d1 x1] s1 IH]; intros [| [d2 x2] s2] H; try discriminate H.
  - reflexivity.
  - simpl in H. injection H as -> H. simpl.
    destruct ((window_start year <=? d2)%Z && (d2 <=? window_end year)%Z); simpl.
    + f_equal. apply IH. exact H.
    + apply IH. exact H.
Qed.

Lemma window_slice_same_empty {A B : Type} (year : Z) (s1 : series A) (s2 : series B) :
  index s1 = index s2 ->
  (window_slice year s1 = [] <-> window_slice year s2 = []).
Proof.
  intros H. pose proof (window_slice_same_index year s1 s2 H) as E.
  unfold index in E. split; intros He; rewrite He in E; simpl in E.
  - symmetry in E. apply map_eq_nil in E. exact E.
  - apply map_eq_nil in E. exact E.
Qed.

Lemma normalize_raises64 (ser : series float) (e : exn) :
  F64.normalize ser = Raise e <-> ser = [] /\ e = IndexError.
Proof.
  destruct ser as [| [d0 x0] ser]; simpl; split.
  - intros H. injection H as <-. split; reflexivity.
  - intros [_ ->]. reflexivity.
  - unfold F64.normalize. simpl. discriminate.
  - intros [H _]. discriminate H.
Qed.

Lemma setitem_names64 (df : F64.dataframe) (name : string) (s : series float) :
  map fst (F64.df_columns (F64.setitem df name s))
  = map fst (F64.df_columns df) ++ [name].
Proof.
  destruct df as [[| d idx] cols]; destruct s as [| r s];
    unfold F64.setitem; simpl; rewrite map_app; simpl; try reflexivity.
  rewrite map_map. reflexivity.
Qed.

(** On non-empty slices the loop runs to its end, one column a sector. *)
Lemma df_perf_loop_returns64 (year : Z) (closes : list (string * series float)) :
  forall df,
    Forall (fun c => window_slice year (snd c) <> []) closes ->
    exists df', F64.df_perf_loop year closes df = Ok df'
                /\ map fst (F64.df_columns df')
                   = map fst (F64.df_columns df) ++ map fst closes.
Proof.
  induction closes as [| [name close] rest IH]; intros df Hall.
  - exists df. split; [reflexivity |]. rewrite app_nil_r. reflexivity.
  - inversion Hall as [| ? ? Hc Hrest]; subst. simpl in Hc.
    simpl F64.df_perf_loop.
    destruct (window_slice year close) as [| [d0 x0] ser] eqn:Hs; [contradiction |].
    unfold F64.normalize, iloc0, bind. cbv beta iota.
    destruct (IH (F64.setitem df name
                    (map (fun r => (fst r, (snd r / x0)%float)) ((d0, x0) :: ser))) Hrest)
      as [df' [Hloop Hnames]].
    exists df'. split; [exact Hloop |].
    rewrite Hnames, setitem_names64, <- app_assoc. reflexivity.
Qed.

(** C10.  Every series the script slices is a column of the one frame
    [df_all], so all of them carry its row index and their window slices
    are empty together.  [ser / ser.iloc[0]] raises only on an empty slice,
    and then [IndexError]; but when the window holds no row, the script has
    already stopped at [recovery_time(idx_ser)] with the [ValueError] of
    [idxmin] on an empty series, and when the window holds a row, no sector
    slice is empty and the loop fills [df_perf] without an exception,
    whatever the cells hold.  No guard precedes either statement. *)
Theorem normalize_empty_window (df_all : frame float) (idx : list date) (year : Z)
        (idx_close : series float) (closes : list (string * series float)) :
  shared_index idx df_all ->
  get_adj_close df_all INDEX = Ok (PSeries idx_close) ->
  Forall (fun c => exists ticker, get_adj_close df_all ticker = Ok (PSeries (snd c)))
         closes ->
  (forall ser e, F64.normalize ser = Raise e <-> ser = [] /\ e = IndexError)
  /\ Forall (fun c => window_slice year (snd c) = []
                      <-> window_slice year idx_close = []) closes
  /\ (window_slice year idx_close = [] ->
      F64.report year idx_close closes = Raise ValueError)
  /\ (window_slice year idx_close <> [] ->
      exists df, F64.df_perf year closes = Ok df
                 /\ map fst (F64.df_columns df) = map fst closes).
Proof.
  intros Hsh Hidx Hcl.
  pose proof (get_adj_close_index idx df_all INDEX idx_close Hsh Hidx) as Hi.
  assert (Hsame : Forall (fun c => window_slice year (snd c) = []
                                   <-> window_slice year idx_close = []) closes).
  { rewrite Forall_forall in *. intros c Hin.
    destruct (Hcl c Hin) as [ticker Hg].
    apply window_slice_same_empty.
    rewrite Hi. apply (get_adj_close_index idx df_all ticker (snd c) Hsh Hg). }
  split; [apply normalize_raises64 |]. split; [exact Hsame |]. split.
  - intros He. unfold F64.report. rewrite He. reflexivity.
  - intros Hne.
    destruct (df_perf_loop_returns64 year closes (F64.DataFrame [] [])) as [df [Hdf Hn]].
    + rewrite Forall_forall in *. intros c Hin He.
      apply Hne. apply (Hsame c Hin). exact He.
    + exists df. split; [exact Hdf | exact Hn].
Qed.

Lemma normalize_empty_window_witness :
  shared_index (index index_close) dataset64
  /\ get_adj_close dataset64 INDEX = Ok (PSeries index_close)
  /\ window_slice 2008 index_close = []
  /\ F64.report 2008 index_close [("Technology"%string, unlisted_close)]
     = Raise ValueError.
Proof.
  assert (Hsh : shared_index (index index_close) dataset64)
    by (repeat constructor).
  assert (Hidx : get_adj_close dataset64 INDEX = Ok (PSeries index_close))
    by reflexivity.
  assert (Hcl : Forall (fun c => exists ticker,
                            get_adj_close dataset64 ticker = Ok (PSeries (snd c)))
                       [("Technology"%string, unlisted_close)]).
  { constructor; [exists "XLK"%string; reflexivity | constructor]. }
  assert (He : window_slice 2008 index_close = []) by reflexivity.
  split; [exact Hsh |]. split; [exact Hidx |]. split; [exact He |].
  destruct (normalize_empty_window dataset64 (index index_close) 2008 index_close
              [("Technology"%string, unlisted_close)] Hsh Hidx Hcl)
    as [_ [_ [Hraise _]]].
  apply Hraise. exact He.
Defined.

(** In [dataset64] the sector XLK has no observation in the window of 2020:
    its slice is three rows of NaN, not an empty series, and the loop stores
    a column of NaN without an exception.  In the window of 2008, which
    holds no row at all, the script ends with the [ValueError] of line 77;
    the [IndexError] of the division is what the loop alone would raise. *)
Lemma sector_without_observations :
  shared_index (index index_close) dataset64
  /\ get_adj_close dataset64 INDEX = Ok (PSeries index_close)
  /\ get_adj_close dataset64 "XLK" = Ok (PSeries unlisted_close)
  /\ F64.valid (values (window_slice 2020 unlisted_close)) = []
  /\ F64.df_perf 2020 [("Technology"%string, unlisted_close)]
     = Ok (F64.DataFrame (index index_close) [("Technology"%string, [nan; nan; nan])])
  /\ (exists dd rt df,
         F64.report 2020 index_close [("Technology"%string, unlisted_close)]
         = Ok (dd, rt, df))
  /\ window_slice 2008 unlisted_close = []
  /\ F64.df_perf 2008 [("Technology"%string, unlisted_close)] = Raise IndexError
  /\ F64.report 2008 index_close [("Technology"%string, unlisted_close)]
     = Raise ValueError.
Proof.
  split; [repeat constructor |]. split; [reflexivity |]. split; [reflexivity |].
  split; [vm_compute; reflexivity |]. split; [vm_compute; reflexivity |].
  split; [do 3 eexists; vm_compute; reflexivity |].
  split; [reflexivity |]. split; vm_compute; reflexivity.
Qed.

(** ** The trough and the forward scan, exactly *)

Lemma drawdown_is_dd_at (s : series Q) (t : nat) :
  nth_error (values (drawdown s)) t = dd_at s t.
Proof.
  unfold dd_at. destruct (nth_error (values s) t) as [x |] eqn:Hx.
  - destruct (drawdown_nth s t x Hx) as [m [HM Hd]]. rewrite HM. exact Hd.
  - apply nth_error_None. apply nth_error_None in Hx.
    unfold values in *. rewrite length_map in *. rewrite drawdown_length.
    exact Hx.
Qed.

(** [idxmin_from] keeps the incumbent unless a strictly smaller value
    follows, and then names the first row holding the least value. *)
Lemma idxmin_from_spec (l : series Q) : forall bd b,
  (idxmin_from bd b l = bd /\ forall x, In x (values l) -> b <= x)
  \/ (exists t v,
         nth_error l t = Some (idxmin_from bd b l, v)
         /\ v < b
         /\ (forall u w, nth_error (values l) u = Some w -> v <= w)
         /\ (forall u w, (u < t)%nat -> nth_error (values l) u = Some w -> v < w)).
Proof.
  induction l as [| [d x] l IH]; intros bd b.
  - left. split; [reflexivity | intros x []].
  - simpl. destruct (Qlt_le_dec x b) as [Hlt | Hle].
    + right. destruct (IH d x) as [[E Hall] | [t [v [Hn [Hv [Hlow Hfirst]]]]]].
      * exists 0%nat, x. rewrite E. split; [reflexivity |].
        split; [exact Hlt |]. split.
        -- intros [| u] w Hw; simpl in Hw.
           ++ injection Hw as <-. lra.
           ++ apply Hall. eapply nth_error_In; exact Hw.
        -- intros u w Hu. lia.
      * exists (S t), v. split; [exact Hn |]. split; [lra |]. split.
        -- intros [| u] w Hw; simpl in Hw.
           ++ injection Hw as <-. lra.
           ++ eapply Hlow; exact Hw.
        -- intros [| u] w Hu Hw; simpl in Hw.
           ++ injection Hw as <-. exact Hv.
           ++ apply (Hfirst u); [lia | exact Hw].
    + destruct (IH bd b) as [[E Hall] | [t [v [Hn [Hv [Hlow Hfirst]]]]]].
      * left. split; [exact E |]. intros y [<- | Hin]; [exact Hle | auto].
      * right. exists (S t), v. split; [exact Hn |]. split; [exact Hv |]. split.
        -- intros [| u] w Hw; simpl in Hw.
           ++ injection Hw as <-. lra.
           ++ eapply Hlow; exact Hw.
        -- intros [| u] w Hu Hw; simpl in Hw.
           ++ injection Hw as <-. lra.
           ++ apply (Hfirst u); [lia | exact Hw].
Qed.

(** [idxmin] names the earliest row that holds the least value. *)
Lemma idxmin_first_min (s : series Q) :
  s <> [] ->
  exists t d v,
    idxmin s = Ok d
    /\ nth_error s t = Some (d, v)
    /\ (forall u w, nth_error (values s) u = Some w -> v <= w)
    /\ (forall u w, (u < t)%nat -> nth_error (values s) u = Some w -> v < w).
Proof.
  destruct s as [| [d0 x0] l]; [contradiction |]. intros _.
  destruct (idxmin_from_spec l d0 x0) as [[E Hall] | [t [v [Hn [Hv [Hlow Hfirst]]]]]].
  - exists 0%nat, d0, x0. simpl. rewrite E. split; [reflexivity |].
    split; [reflexivity |]. split.
    + intros [| u] w Hw; simpl in Hw.
      * injection Hw as <-. lra.
      * apply Hall. eapply nth_error_In; exact Hw.
    + intros u w Hu. lia.
  - exists (S t), (idxmin_from d0 x0 l), v. split; [reflexivity |].
    split; [exact Hn |]. split.
    + intros [| u] w Hw; simpl in Hw.
      * injection Hw as <-. lra.
      * eapply Hlow; exact Hw.
    + intros [| u] w Hu Hw; simpl in Hw.
      * injection Hw as <-. exact Hv.
      * apply (Hfirst u); [lia | exact Hw].
Qed.

(** On a strictly increasing index a label slice is a positional one. *)
Lemma loc_upto_all_later {A : Type} (d : date) (s : series A) :
  Forall (fun d' => (d < d')%Z) (index s) -> loc_upto d s = [].
Proof.
  induction s as [| [d' x] s IH]; intros H; [reflexivity |].
  inversion H as [| ? ? Hd Hrest]; subst. unfold loc_upto in *. simpl.
  destruct (Z.leb_spec d' d) as [Hle | _]; [simpl in Hd; lia | apply IH; exact Hrest].
Qed.

Lemma loc_since_all_later {A : Type} (d : date) (s : series A) :
  Forall (fun d' => (d < d')%Z) (index s) -> loc_since d s = s.
Proof.
  induction s as [| [d' x] s IH]; intros H; [reflexivity |].
  inversion H as [| ? ? Hd Hrest]; subst. unfold loc_since in *. simpl.
  destruct (Z.leb_spec d d') as [_ | Hgt]; [| simpl in Hd; lia].
  f_equal. apply IH; exact Hrest.
Qed.

Lemma increasing_nth_later (l : list date) (d0 : date) (t : nat) (d : date) :
  Forall (fun d' => (d0 < d')%Z) l -> nth_error l t = Some d -> (d0 < d)%Z.
Proof.
  intros H Hn. rewrite Forall_forall in H. apply H.
  eapply nth_error_In; exact Hn.
Qed.

Lemma loc_upto_increasing {A : Type} (s : series A) : forall t d,
  increasing (index s) -> nth_error (index s) t = Some d ->
  loc_upto d s = firstn (S t) s.
Proof.
  induction s as [| [d0 x] s IH]; intros t d Hinc Hn.
  - destruct t; discriminate Hn.
  - simpl in Hinc. destruct Hinc as [Hlater Hinc].
    destruct t as [| t]; simpl in Hn.
    + injection Hn as <-. unfold loc_upto. simpl.
      rewrite Z.leb_refl. f_equal.
      apply (loc_upto_all_later d0 s Hlater).
    + pose proof (increasing_nth_later _ _ _ _ Hlater Hn) as Hlt.
      unfold loc_upto. simpl.
      destruct (Z.leb_spec d0 d) as [_ | Hgt]; [| lia].
      change (firstn (S (S t)) ((d0, x) :: s)) with ((d0, x) :: firstn (S t) s).
      f_equal. apply (IH t d Hinc Hn).
Qed.

Lemma loc_since_increasing {A : Type} (s : series A) : forall t d,
  increasing (index s) -> nth_error (index s) t = Some d ->
  loc_since d s = skipn t s.
Proof.
  induction s as [| [d0 x] s IH]; intros t d Hinc Hn.
  - destruct t; discriminate Hn.
  - simpl in Hinc. destruct Hinc as [Hlater Hinc].
    destruct t as [| t]; simpl in Hn.
    + injection Hn as <-. unfold loc_since. simpl.
      rewrite Z.leb_refl. f_equal.
      apply (loc_since_all_later d0 s Hlater).
    + pose proof (increasing_nth_later _ _ _ _ Hlater Hn) as Hlt.
      unfold loc_since. simpl.
      destruct (Z.leb_spec d d0) as [Hle | _]; [lia |].
      apply (IH t d Hinc Hn).
Qed.

(** The forward scan [post[post >= peak].first_valid_index()]. *)
Lemma first_at_least (peak : Q) (l : series Q) :
  (first_valid_index (at_least peak l) = None
   /\ forall u x, nth_error (values l) u = Some x -> x < peak)
  \/ (exists k d x,
         first_valid_index (at_least peak l) = Some d
         /\ nth_error l k = Some (d, x)
         /\ peak <= x
         /\ forall u y, (u < k)%nat -> nth_error (values l) u = Some y -> y < peak).
Proof.
  induction l as [| [d x] l IH].
  - left. split; [reflexivity |]. intros [| u] x H; discriminate H.
  - unfold at_least. simpl. destruct (Qle_bool peak x) eqn:Hb.
    + right. exists 0%nat, d, x. apply Qle_bool_iff in Hb.
      split; [reflexivity |]. split; [reflexivity |]. split; [exact Hb |].
      intros u y Hu. lia.
    + assert (Hlt : x < peak).
      { apply Qnot_le_lt. intros Hle. apply Qle_bool_iff in Hle. congruence. }
      destruct IH as [[E Hall] | [k [d' [x' [E [Hn [Hp Hbefore]]]]]]].
      * left. split; [exact E |].
        intros [| u] y Hy; simpl in Hy.
        -- injection Hy as <-. exact Hlt.
        -- eapply Hall; exact Hy.
      * right. exists (S k), d', x'. split; [exact E |]. split; [exact Hn |].
        split; [exact Hp |].
        intros [| u] y Hu Hy; simpl in Hy.
        -- injection Hy as <-. exact Hlt.
        -- apply (Hbefore u); [lia | exact Hy].
Qed.

Lemma nth_error_values {A : Type} (s : series A) (t : nat) (d : date) (x : A) :
  nth_error s t = Some (d, x) ->
  nth_error (index s) t = Some d /\ nth_error (values s) t = Some x.
Proof.
  intros H. unfold index, values. rewrite !nth_error_map, H. split; reflexivity.
Qed.

Ltac prove_increasing :=
  simpl; repeat split; repeat (constructor; [reflexivity |]); try constructor.

(** ** The order of binary64 numbers *)

















(** ** The running maximum over binary64 *)




Lemma fmax_number (a b : float) :
  is_nan a = false -> is_nan b = false -> is_nan (F64.fmax a b) = false.
Proof. intros Ha Hb. unfold F64.fmax. destruct (a <? b)%float; assumption. Qed.


Lemma max_from_number (l : list float) : forall m,
  is_nan m = false -> F64.numbers l -> is_nan (F64.max_from m l) = false.
Proof.
  induction l as [| x l IH]; intros m Hm Hl; [exact Hm |].
  inversion Hl as [| ? ? Hx Hrest]; subst. simpl.
  apply IH; [apply fmax_number; assumption | exact Hrest].
Qed.






(** ** The drawdown series over binary64, row by row *)





(** ** C2: [recovery_time] *)








(** ** C9: a series that never declines *)

Lemma non_decreasing_head (l : list Q) : forall x y,
  non_decreasing (x :: l) -> In y l -> x <= y.
Proof.
  induction l as [| z l IH]; intros x y H Hin; [destruct Hin |].
  simpl in H. destruct H as [Hxz Hrest].
  destruct Hin as [<- | Hin]; [exact Hxz |].
  assert (z <= y) by (apply IH; [exact Hrest | exact Hin]). lra.
Qed.

Lemma non_decreasing_nth (l : list Q) : forall u t a b,
  non_decreasing l -> (u <= t)%nat ->
  nth_error l u = Some a -> nth_error l t = Some b -> a <= b.
Proof.
  induction l as [| x l IH]; intros u t a b H Hut Ha Hb.
  - destruct u; discriminate Ha.
  - destruct u as [| u]; destruct t as [| t]; simpl in Ha, Hb; try lia.
    + assert (a = b) by congruence. subst. lra.
    + injection Ha as <-. apply (non_decreasing_head l x b H).
      eapply nth_error_In; exact Hb.
    + apply (IH u t a b); [apply H | lia | exact Ha | exact Hb].
Qed.

Lemma idxmin_from_keep (l : series Q) : forall bd b,
  (forall x, In x (values l) -> b <= x) -> idxmin_from bd b l = bd.
Proof.
  induction l as [| [d x] l IH]; intros bd b H; [reflexivity |].
  simpl. destruct (Qlt_le_dec x b) as [Hlt | _].
  - assert (b <= x) by (apply H; left; reflexivity). lra.
  - apply IH. intros y Hy. apply H. right. exact Hy.
Qed.

Lemma drawdown_non_decreasing (s : series Q) (v : Q) :
  positive s -> non_decreasing (values s) ->
  In v (values (drawdown s)) -> v == 0.
Proof.
  intros Hp Hnd Hin.
  destruct (drawdown_value s v Hin) as [t [x [m [Hx [HM [_ ->]]]]]].
  destruct (M_bounds s t x m Hp Hx HM) as [Hxpos Hxle].
  destruct (M_is_max s t m HM) as [_ [u [Hu Hmu]]].
  pose proof (non_decreasing_nth _ u t m x Hnd Hu Hmu Hx) as Hmx.
  apply rel_diff_zero; lra.
Qed.

(** C9.  On a non-empty series of positive prices that never go down, over
    strictly increasing dates, every drawdown is 0, [idxmin] names the first
    row, the peak before the trough is the first price, the forward scan
    stops at the trough itself, and [recovery_time] returns the number 0,
    not the unrecovered value. *)
Theorem recovery_time_non_decreasing (s : series Q) :
  s <> [] -> positive s -> increasing (index s) -> non_decreasing (values s) ->
  exists d0 x0,
    nth_error s 0 = Some (d0, x0)
    /\ (forall v, In v (values (drawdown s)) -> v == 0)
    /\ idxmin (drawdown s) = Ok d0
    /\ series_max (loc_upto d0 s) = Some x0
    /\ first_valid_index (at_least x0 (loc_since d0 s)) = Some d0
    /\ recovery_time s = Ok (Some 0%Z)
    /\ recovery_time s <> Ok None.
Proof.
  intros Hne Hp Hinc Hnd.
  pose proof (drawdown_non_decreasing s) as Hzero.
  destruct s as [| [d0 x0] l]; [contradiction |].
  exists d0, x0. split; [reflexivity |].
  split; [intros v Hv; apply Hzero; assumption |].
  assert (Hidx : idxmin (drawdown ((d0, x0) :: l)) = Ok d0).
  { unfold drawdown. simpl. f_equal. apply idxmin_from_keep.
    intros y Hy.
    assert (H0 : (x0 - x0) / x0 == 0).
    { apply (Hzero _ Hp Hnd). unfold drawdown. simpl. left. reflexivity. }
    assert (Hy0 : y == 0).
    { apply (Hzero _ Hp Hnd). unfold drawdown. simpl. right. exact Hy. }
    lra. }
  assert (Hup : loc_upto d0 ((d0, x0) :: l) = [(d0, x0)]).
  { apply (loc_upto_increasing ((d0, x0) :: l) 0 d0 Hinc). reflexivity. }
  assert (Hsince : loc_since d0 ((d0, x0) :: l) = (d0, x0) :: l).
  { apply (loc_since_increasing ((d0, x0) :: l) 0 d0 Hinc). reflexivity. }
  assert (Hscan : first_valid_index (at_least x0 ((d0, x0) :: l)) = Some d0).
  { unfold at_least. simpl.
    assert (Hb : Qle_bool x0 x0 = true) by (apply Qle_bool_iff; lra).
    rewrite Hb. reflexivity. }
  assert (Hrt : recovery_time ((d0, x0) :: l) = Ok (Some 0%Z)).
  { unfold recovery_time. rewrite Hidx. unfold bind. cbv beta iota.
    rewrite Hup, Hsince. unfold series_max. simpl values.
    cbv beta iota. simpl max_from. rewrite Hscan. rewrite Z.sub_diag.
    reflexivity. }
  split; [exact Hidx |]. split; [rewrite Hup; reflexivity |].
  split; [rewrite Hsince; exact Hscan |].
  split; [exact Hrt |]. rewrite Hrt. discriminate.
Qed.

Lemma recovery_time_non_decreasing_witness :
  rising <> [] /\ positive rising /\ increasing (index rising)
  /\ non_decreasing (values rising)
  /\ recovery_time rising = Ok (Some 0%Z).
Proof.
  assert (Hne : rising <> []) by discriminate.
  assert (Hp : positive rising) by prove_positive.
  assert (Hi : increasing (index rising)) by prove_increasing.
  assert (Hnd : non_decreasing (values rising)).
  { simpl. split; [discriminate | split; exact I]. }
  split; [exact Hne |]. split; [exact Hp |]. split; [exact Hi |].
  split; [exact Hnd |].
  destruct (recovery_time_non_decreasing rising Hne Hp Hi Hnd)
    as [d0 [x0 [_ [_ [_ [_ [_ [H _]]]]]]]].
  exact H.
Defined.

(** ** C3: the crash window *)

Lemma window_slice_In {A : Type} (year : Z) (s : series A) (r : date * A) :
  In r (window_slice year s)
  <-> In r s /\ (window_start year <= fst r <= window_end year)%Z.
Proof.
  unfold window_slice, loc_between. rewrite filter_In.
  rewrite andb_true_iff, !Z.leb_le. tauto.
Qed.

Lemma filter_none {A : Type} (f : A -> bool) (l : list A) :
  (forall x, In x l -> f x = false) -> filter f l = [].
Proof.
  induction l as [| a l IH]; intros H; [reflexivity |].
  simpl. rewrite (H a (or_introl eq_refl)). apply IH.
  intros x Hx. apply H. right. exact Hx.
Qed.

Lemma later_rows {A : Type} (d : date) (s : series A) (r : date * A) :
  Forall (fun d' => (d < d')%Z) (index s) -> In r s -> (d < fst r)%Z.
Proof.
  intros H Hin. rewrite Forall_forall in H. apply H.
  unfold index. apply in_map. exact Hin.
Qed.

(** On a sorted index the rows of a closed date interval are contiguous:
    the rows before it, the slice, the rows after it. *)
Lemma loc_between_split {A : Type} (lo hi : date) (s : series A) :
  (lo <= hi)%Z -> increasing (index s) ->
  s = filter (fun r => (fst r <? lo)%Z) s
      ++ loc_between lo hi s
      ++ filter (fun r => (hi <? fst r)%Z) s.
Proof.
  intros Hlohi.
  induction s as [| [d x] s IH]; intros Hinc; [reflexivity |].
  simpl in Hinc. destruct Hinc as [Hlater Hinc].
  specialize (IH Hinc). unfold loc_between in *. cbn [filter fst].
  destruct (Z.ltb_spec d lo) as [Hlo | Hlo].
  - destruct (Z.leb_spec lo d) as [H | _]; [lia |]. cbn [andb].
    destruct (Z.ltb_spec hi d) as [Hhi | Hhi]; [lia |].
    cbn [app]. f_equal. exact IH.
  - assert (E : filter (fun r : Z * A => (fst r <? lo)%Z) s = []).
    { apply filter_none. intros r Hr.
      pose proof (later_rows d s r Hlater Hr). apply Z.ltb_ge.
      unfold date in *. lia. }
    rewrite E in IH |- *. cbn [app] in IH |- *.
    destruct (Z.leb_spec lo d) as [_ | H]; [| lia]. cbn [andb].
    destruct (Z.leb_spec d hi) as [Hhi | Hhi].
    + destruct (Z.ltb_spec hi d) as [H | _]; [lia |].
      cbn [app]. f_equal. exact IH.
    + destruct (Z.ltb_spec hi d) as [_ | H]; [| lia].
      assert (E2 : filter (fun r : Z * A => (lo <=? fst r)%Z && (fst r <=? hi)%Z) s = []).
      { apply filter_none. intros r Hr.
        pose proof (later_rows d s r Hlater Hr). apply andb_false_iff. right.
        apply Z.leb_gt. unfold date in *. lia. }
      rewrite E2 in IH |- *. cbn [app] in IH |- *. f_equal. exact IH.
Qed.

(** The window spans two calendar years. *)
Lemma window_span (year : Z) :
  (window_start year + 730 <= window_end year <= window_start year + 731)%Z.
Proof.
  unfold window_start, window_end, toordinal, days_before_month, days_before_year.
  simpl. replace (year - 1 - 1)%Z with (year - 2)%Z by lia.
  replace (year + 1 - 1)%Z with year by lia.
  Z.to_euclidean_division_equations; lia.
Qed.

(** C3, as the code has it.  The slice of the window of crash year [year]
    holds exactly the rows dated from 1 January of [year - 1] to 1 January
    of [year + 1], both days included; it is always a series, whatever
    part of the window the data covers; and on a sorted index it is the
    contiguous run of rows between those before the window and those after
    it. *)
Theorem window_slice_spec {A : Type} (year : Z) (s : series A) :
  window_start year = toordinal (year - 1) 1 1
  /\ window_end year = toordinal (year + 1) 1 1
  /\ (forall r, In r (window_slice year s)
                <-> In r s /\ (window_start year <= fst r <= window_end year)%Z)
  /\ (increasing (index s) ->
      exists before after,
        s = before ++ window_slice year s ++ after
        /\ Forall (fun d => (d < window_start year)%Z) (index before)
        /\ Forall (fun d => (window_end year < d)%Z) (index after)).
Proof.
  split; [reflexivity |]. split; [reflexivity |].
  split; [intros r; apply window_slice_In |].
  intros Hinc.
  exists (filter (fun r => (fst r <? window_start year)%Z) s),
         (filter (fun r => (window_end year <? fst r)%Z) s).
  split; [apply loc_between_split; [pose proof (window_span year); lia | exact Hinc] |].
  split; apply Forall_forall; intros d Hd; unfold index in Hd;
    apply in_map_iff in Hd; destruct Hd as [r [<- Hr]];
    apply filter_In in Hr; destruct Hr as [_ Hr]; apply Z.ltb_lt in Hr; exact Hr.
Qed.

Lemma window_slice_spec_witness :
  increasing (index new_year_2009)
  /\ exists before after,
       new_year_2009 = before ++ window_slice 2008 new_year_2009 ++ after
       /\ Forall (fun d => (d < window_start 2008)%Z) (index before)
       /\ Forall (fun d => (window_end 2008 < d)%Z) (index after).
Proof.
  assert (Hi : increasing (index new_year_2009)) by prove_increasing.
  split; [exact Hi |].
  apply (proj2 (proj2 (proj2 (window_slice_spec 2008 new_year_2009))) Hi).
Defined.

(** The claim of a half-open window fails on the code: a row dated
    1 January 2009 is in the slice of crash year 2008, although its date is
    not before the window's end. *)
Lemma window_slice_keeps_end_date :
  In 2008%Z CRASH_YEARS
  /\ In (toordinal 2009 1 1, 905) (window_slice 2008 new_year_2009)
  /\ toordinal 2009 1 1 = window_end 2008
  /\ ~ (In (toordinal 2009 1 1, 905) (window_slice 2008 new_year_2009)
        <-> In (toordinal 2009 1 1, 905) new_year_2009
            /\ (window_start 2008 <= toordinal 2009 1 1 < window_end 2008)%Z).
Proof.
  assert (Hin : In (toordinal 2009 1 1, 905) (window_slice 2008 new_year_2009)).
  { vm_compute. right. left. reflexivity. }
  split; [left; reflexivity |].
  split; [exact Hin |]. split; [reflexivity |].
  intros [H _]. apply H in Hin. destruct Hin as [_ [_ Hlt]].
  vm_compute in Hlt. discriminate Hlt.
Qed.

(** ** C5: the recovery line of the summary *)

(** A positive day count is printed as a number. *)
Lemma recovery_line_positive (n : Z) :
  (n <> 0)%Z ->
  recovery_line (Some n) = ("- **Recovery Time:** " ++ str_int n ++ " days")%string.
Proof.
  intros Hn. unfold recovery_line, truthy.
  destruct (Z.eqb_spec n 0) as [E | _]; [contradiction | reflexivity].
Qed.

(** C5, on the code.  The series [rising] recovers in 0 days, and the line
    the program prints for it is the line it prints for [falling], which
    never recovers: the count 0 is shown as "Not recovered". *)
Theorem recovery_report_zero_days :
  recovery_time rising = Ok (Some 0%Z)
  /\ recovery_time falling = Ok None
  /\ recovery_report rising = Ok "- **Recovery Time:** Not recovered days"%string
  /\ recovery_report falling = recovery_report rising.
Proof.
  split; [reflexivity |]. split; [reflexivity |]. split; reflexivity.
Qed.

(** ** C6: rolling volatility *)

Lemma values_combine {A B : Type} (l1 : list A) : forall (l2 : list B),
  length l1 = length l2 -> map snd (combine l1 l2) = l2.
Proof.
  induction l1 as [| a l1 IH]; intros [| b l2] H; simpl in *;
    try reflexivity; try discriminate.
  f_equal. apply IH. lia.
Qed.

Lemma index_combine {A B : Type} (l1 : list A) : forall (l2 : list B),
  length l1 = length l2 -> map fst (combine l1 l2) = l1.
Proof.
  induction l1 as [| a l1 IH]; intros [| b l2] H; simpl in *;
    try reflexivity; try discriminate.
  f_equal. apply IH. lia.
Qed.

Lemma rolling_std_values (window : nat) (s : series Q) :
  values (rolling_std window s)
  = map (fun i =>
           let w := window_at window i (values s) in
           if (window <=? length w)%nat && (1 <? length w)%nat
           then Some (std 1 w) else None)
        (seq 0 (length s)).
Proof.
  unfold rolling_std, values. apply values_combine.
  unfold index. rewrite !length_map, length_seq. reflexivity.
Qed.

Lemma rolling_std_index (window : nat) (s : series Q) :
  index (rolling_std window s) = index s.
Proof.
  unfold rolling_std. unfold index at 1. apply index_combine.
  unfold index. rewrite !length_map, length_seq. reflexivity.
Qed.

Lemma rolling_std_nth (window : nat) (s : series Q) (i : nat) :
  (i < length s)%nat ->
  nth_error (values (rolling_std window s)) i
  = Some (let w := window_at window i (values s) in
          if (window <=? length w)%nat && (1 <? length w)%nat
          then Some (std 1 w) else None).
Proof.
  intros Hi. rewrite rolling_std_values, nth_error_map, nth_error_seq.
  destruct (Nat.ltb_spec i (length s)) as [_ | H]; [reflexivity | lia].
Qed.

(** A window that reaches back before the first row is short. *)
Lemma window_at_short {A : Type} (window i : nat) (xs : list A) :
  (i + 1 < window)%nat -> (length (window_at window i xs) < window)%nat.
Proof.
  intros H. unfold window_at. rewrite length_firstn. lia.
Qed.

(** A full window holds the [window] observations that end at row [i]. *)
Lemma window_at_full {A : Type} (window i : nat) (xs : list A) :
  (window <= i + 1)%nat -> (i < length xs)%nat ->
  window_at window i xs = firstn window (skipn (i + 1 - window) xs)
  /\ length (window_at window i xs) = window
  /\ forall j, (j < window)%nat ->
       nth_error (window_at window i xs) j = nth_error xs (i + 1 - window + j).
Proof.
  intros Hw Hi. unfold window_at.
  replace (i + 1 - (i + 1 - window))%nat with window by lia.
  split; [reflexivity |]. split.
  - rewrite length_firstn, length_skipn. lia.
  - intros j Hj. rewrite nth_error_firstn.
    destruct (Nat.ltb_spec j window) as [_ | H]; [| lia].
    apply nth_error_skipn.
Qed.

(** C6.  [vol30] keeps the dates of the returns.  Its rows 0 to 28 are NaN;
    each row [i] from 29 on is the square root of the sample variance
    (divisor 29) of the 30 returns of rows [i - 29] to [i].  With fewer than
    30 returns every row is NaN.  NaN is not a number: no row that holds a
    value, zero included, is NaN. *)
Theorem vol30_spec (r : series Q) :
  index (vol30 r) = index r
  /\ (forall i, (i < 29)%nat -> (i < length r)%nat ->
        nth_error (values (vol30 r)) i = Some None)
  /\ (forall i, (29 <= i)%nat -> (i < length r)%nat ->
        exists w,
          length w = 30%nat
          /\ (forall j, (j < 30)%nat ->
                nth_error w j = nth_error (values r) (i - 29 + j))
          /\ nth_error (values (vol30 r)) i
             = Some (Some (Sqrt (Qsum (map (fun x => (x - Qsum w / 30) * (x - Qsum w / 30)) w)
                                 / 29))))
  /\ ((length r < 30)%nat -> forall c, In c (values (vol30 r)) -> c = None)
  /\ (forall q, Some (Sqrt q) <> (None : option surd)).
Proof.
  assert (Hearly : forall i, (i < 29)%nat -> (i < length r)%nat ->
            nth_error (values (vol30 r)) i = Some None).
  { intros i Hi Hlen. unfold vol30. rewrite (rolling_std_nth 30 r i Hlen).
    cbv zeta. pose proof (window_at_short 30 i (values r) ltac:(lia)) as Hs.
    destruct (Nat.leb_spec 30 (length (window_at 30 i (values r)))) as [H | _];
      [lia | reflexivity]. }
  split; [apply rolling_std_index |]. split; [exact Hearly |]. split; [| split].
  - intros i Hi Hlen.
    assert (Hlv : (i < length (values r))%nat)
      by (unfold values; rewrite length_map; exact Hlen).
    destruct (window_at_full 30 i (values r) ltac:(lia) Hlv) as [_ [Hl Hnth]].
    exists (window_at 30 i (values r)).
    split; [exact Hl |]. split.
    + intros j Hj. rewrite (Hnth j Hj). f_equal. lia.
    + unfold vol30. rewrite (rolling_std_nth 30 r i Hlen). cbv zeta.
      unfold std, var, ssqdm, mean, Qcount. rewrite Hl. reflexivity.
  - intros Hshort c Hc. apply In_nth_error in Hc. destruct Hc as [i Hi].
    assert (Hlt : (i < length r)%nat).
    { assert (Hl : (i < length (values (vol30 r)))%nat)
        by (apply nth_error_Some; rewrite Hi; discriminate).
      unfold vol30 in Hl. rewrite rolling_std_values, length_map, length_seq in Hl.
      exact Hl. }
    rewrite (Hearly i ltac:(lia) Hlt) in Hi. congruence.
  - intros q. discriminate.
Qed.

Lemma vol30_spec_witness :
  (28 < 29)%nat /\ (29 <= 30)%nat /\ (30 < length ramp)%nat
  /\ nth_error (values (vol30 ramp)) 28 = Some None
  /\ exists sd, nth_error (values (vol30 ramp)) 30 = Some (Some sd).
Proof.
  assert (H28 : (28 < 29)%nat) by lia.
  assert (H29 : (29 <= 30)%nat) by lia.
  assert (Hlen : (30 < length ramp)%nat) by (vm_compute; lia).
  split; [exact H28 |]. split; [exact H29 |]. split; [exact Hlen |].
  destruct (vol30_spec ramp) as [_ [Hearly [Hfull _]]].
  split.
  - apply Hearly; [exact H28 | lia].
  - destruct (Hfull 30%nat H29 Hlen) as [w [_ [_ Hw]]].
    eexists. exact Hw.
Defined.

(** ** C8: [get_adj_close] *)

Lemma select_level0_app {A : Type} (key : string) (a b : list (list string * series A)) :
  select_level0 key (a ++ b) = select_level0 key a ++ select_level0 key b.
Proof.
  induction a as [| [[| k rest] s] a IH]; simpl; auto.
  destruct (key_eqb k key); simpl; [f_equal |]; exact IH.
Qed.

Lemma select_level0_group {A : Type} (key k : string) (fields : list (string * series A)) :
  select_level0 key (map (fun fs => ([k; fst fs], snd fs)) fields)
  = if key_eqb k key then map (fun fs => ([fst fs], snd fs)) fields else [].
Proof.
  induction fields as [| [f s] fields IH]; simpl.
  - destruct (key_eqb k key); reflexivity.
  - rewrite IH. destruct (key_eqb k key); reflexivity.
Qed.

Lemma find_column_app {A : Type} (key : string) (a b : list (list string * series A)) :
  find_column key (a ++ b)
  = match find_column key a with
    | Some s => Some s
    | None => find_column key b
    end.
Proof.
  induction a as [| [[| k [| k' rest]] s] a IH]; simpl; auto.
  destruct (key_eqb k key); [reflexivity | exact IH].
Qed.

Lemma find_column_fields {A : Type} (key : string) (fields : list (string * series A)) :
  find_column key (map (fun fs => ([fst fs], snd fs)) fields) = assoc key fields.
Proof.
  induction fields as [| [f s] fields IH]; simpl; [reflexivity |].
  destruct (key_eqb f key); [reflexivity | exact IH].
Qed.

Lemma grouped_close {A : Type} (data : list (string * list (string * series A)))
      (ticker : string) (fields : list (string * series A)) (s : series A) :
  assoc ticker data = Some fields -> assoc "Close" fields = Some s ->
  find_column "Close" (select_level0 ticker (columns (grouped_of data))) = Some s.
Proof.
  unfold grouped_of. simpl columns.
  induction data as [| [k fl] data IH]; intros Hd Hc; [discriminate |].
  simpl in Hd |- *. rewrite select_level0_app, select_level0_group, find_column_app.
  destruct (key_eqb k ticker).
  - injection Hd as ->. rewrite find_column_fields, Hc. reflexivity.
  - simpl. apply IH; assumption.
Qed.

(** C8, as the code has it.  [get_adj_close] tells the two shapes apart by
    one test.  On the flat table of one instrument it returns the [Close]
    column whatever ticker is asked for; on the table grouped by instrument
    it returns the [Close] column of the requested ticker; both results are
    plain series.  It never checks the shape: the only exception it can
    raise is the [KeyError] of a key that is missing. *)
Theorem get_adj_close_spec {A : Type} :
  (forall (fields : list (string * series A)) (ticker : string) (s : series A),
      assoc "Close" fields = Some s ->
      shape_of (flat_of fields) = Flat
      /\ get_adj_close (flat_of fields) ticker = Ok (PSeries s))
  /\ (forall (data : list (string * list (string * series A))) (ticker : string)
             (fields : list (string * series A)) (s : series A),
         assoc ticker data = Some fields -> assoc "Close" fields = Some s ->
         shape_of (grouped_of data) = Grouped
         /\ get_adj_close (grouped_of data) ticker = Ok (PSeries s))
  /\ (forall (raw_df : frame A) (ticker : string) (e : exn),
         get_adj_close raw_df ticker = Raise e ->
         e = KeyError ticker \/ e = KeyError "Close").
Proof.
  split; [| split].
  - intros fields ticker s Hc. split; [reflexivity |].
    unfold get_adj_close, flat_of. simpl.
    rewrite find_column_fields, Hc. reflexivity.
  - intros data ticker fields s Hd Hc. split; [reflexivity |].
    pose proof (grouped_close data ticker fields s Hd Hc) as Hf.
    assert (Hg : getitem (PFrame (grouped_of data)) ticker
                 = Ok (PFrame (Frame 1 (select_level0 ticker
                                          (columns (grouped_of data)))))).
    { unfold getitem. change (is_multiindex (grouped_of data)) with true.
      cbv iota.
      destruct (select_level0 ticker (columns (grouped_of data)));
        [discriminate Hf | reflexivity]. }
    unfold get_adj_close. change (is_multiindex (grouped_of data)) with true.
    cbv iota. rewrite Hg. unfold bind, getitem.
    change (is_multiindex (Frame 1 (select_level0 ticker (columns (grouped_of data)))))
      with false.
    cbv iota. cbn [columns]. rewrite Hf. reflexivity.
  - intros raw_df ticker e. unfold get_adj_close, getitem.
    destruct (is_multiindex raw_df).
    + destruct (select_level0 ticker (columns raw_df)) as [| c sub].
      * simpl. intros H. injection H as <-. left. reflexivity.
      * unfold bind.
        destruct (is_multiindex _);
          [ destruct (select_level0 _ _) | destruct (find_column _ _) ];
          intros H; try discriminate H; injection H as <-; right; reflexivity.
    + destruct (find_column "Close" (columns raw_df));
        intros H; try discriminate H; injection H as <-; right; reflexivity.
Qed.

Lemma get_adj_close_spec_witness :
  assoc "Close" [("Open", rising); ("Close", scenario)]%string = Some scenario
  /\ get_adj_close (flat_of [("Open", rising); ("Close", scenario)]%string) "^GSPC"
     = Ok (PSeries scenario)
  /\ get_adj_close
       (grouped_of [("^GSPC", [("Close", scenario)]);
                    ("XLK", [("Open", rising); ("Close", falling)])]%string) "XLK"
     = Ok (PSeries falling).
Proof.
  assert (Hc : assoc "Close" [("Open", rising); ("Close", scenario)]%string
               = Some scenario) by reflexivity.
  split; [exact Hc |]. split.
  - apply (proj1 (@get_adj_close_spec Q) _ "^GSPC"%string scenario Hc).
  - apply (proj1 (proj2 (@get_adj_close_spec Q))
                 _ "XLK"%string [("Open", rising); ("Close", falling)]%string falling);
      reflexivity.
Defined.

(** The claim of a typed shape error fails on the code: a table with three
    levels of column keys is neither flat nor grouped, and [get_adj_close]
    returns a sub-frame for it without raising; and a flat table answers a
    request for any ticker with the same column. *)
Lemma get_adj_close_unchecked_shape :
  shape_of three_level = OtherShape
  /\ get_adj_close three_level "XLK"
     = Ok (PFrame (Frame 1 [(["1d"], scenario); (["1wk"], rising)]%string))
  /\ ~ (exists e, get_adj_close three_level "XLK" = Raise e)
  /\ get_adj_close (flat_of [("Close", falling)]%string) "^GSPC"
     = get_adj_close (flat_of [("Close", falling)]%string) "XLK".
Proof.
  split; [reflexivity |]. split; [reflexivity |]. split; [| reflexivity].
  intros [e H]. discriminate H.
Qed.

(** ** C4: the correlation table *)

Lemma reindex_defined_at (idx : list date) (s : series (option Q)) :
  reindex idx s = map (fun d => defined_at d s) idx.
Proof. reflexivity. Qed.

(** Aligning a series with unique dates on its own index changes nothing. *)
Lemma reindex_self (s : series Q) :
  NoDup (index s) -> reindex (index s) (some_values s) = map Some (values s).
Proof.
  induction s as [| [d x] s IH]; intros Hnd; [reflexivity |].
  simpl in Hnd. inversion Hnd as [| ? ? Hnotin Hnd']; subst.
  unfold reindex in *. simpl. rewrite Z.eqb_refl. f_equal.
  rewrite <- (IH Hnd'). apply map_ext_in. intros d' Hd'.
  destruct (Z.eqb_spec d d') as [E | _]; [| reflexivity].
  subst d'. contradiction.
Qed.

(** The rows on which two aligned columns both hold a number are the dates
    on which both series hold a return. *)
Lemma pairwise_obs_aligned (f g : date -> option Q) (ds : list date) :
  pairwise_obs (map f ds) (map g ds)
  = flat_map (fun d => match f d, g d with
                       | Some x, Some y => [(x, y)]
                       | _, _ => []
                       end) ds.
Proof.
  induction ds as [| d ds IH]; [reflexivity |].
  simpl. destruct (f d) as [x |]; destruct (g d) as [y |]; simpl; rewrite IH;
    reflexivity.
Qed.

Lemma pairwise_obs_reindex (idx : list date) (sx sy : series (option Q)) :
  pairwise_obs (reindex idx sx) (reindex idx sy) = obs_on idx sx sy.
Proof.
  rewrite !reindex_defined_at. apply pairwise_obs_aligned.
Qed.

(** Column assignments on a frame that already has rows only add columns,
    each aligned on the frame's index. *)
Lemma setitem_fold (secs : list (string * series (option Q))) : forall df,
  df_index df <> [] ->
  fold_left (fun df ns => setitem df (fst ns) (snd ns)) secs df
  = DataFrame (df_index df)
      (df_columns df
       ++ map (fun ns => (fst ns, reindex (df_index df) (snd ns))) secs).
Proof.
  induction secs as [| [n s] secs IH]; intros [idx cols] Hidx; simpl in *.
  - rewrite app_nil_r. reflexivity.
  - assert (E : setitem (DataFrame idx cols) n s
                = DataFrame idx (cols ++ [(n, reindex idx s)])).
    { unfold setitem. simpl. destruct idx; [contradiction | reflexivity]. }
    rewrite E, IH by exact Hidx. simpl. rewrite <- app_assoc. reflexivity.
Qed.

Lemma corr_df_columns (r : series Q) (sec_rets : list (string * series (option Q))) :
  r <> [] -> NoDup (index r) ->
  df_index (corr_df r sec_rets) = index r
  /\ map snd (df_columns (corr_df r sec_rets))
     = map (reindex (index r)) (some_values r :: map snd sec_rets).
Proof.
  intros Hne Hnd. unfold corr_df. rewrite setitem_fold.
  - simpl. split; [reflexivity |]. f_equal.
    + symmetry. apply reindex_self. exact Hnd.
    + rewrite !map_map. reflexivity.
  - simpl. destruct r; [contradiction | discriminate].
Qed.

Lemma corr_of_columns (df : dataframe) :
  corr df
  = map (fun cx => map (fun cy => pearson (pairwise_obs cx cy))
                       (map snd (df_columns df)))
        (map snd (df_columns df)).
Proof.
  unfold corr. rewrite map_map. apply map_ext. intros cx.
  rewrite map_map. reflexivity.
Qed.

(** C4, as the code has it.  The table is computed by pairwise deletion.
    With the index returns [r] (non-empty, on distinct dates) and the sector
    return series under distinct new names, the entry of rows [i] and [j]
    is Pearson's coefficient of the returns the two series [i] and [j] hold
    on the dates of [r] where both of them hold one, whatever the other
    series hold there; it is undefined when the two share no such date. *)
Theorem corr_df_pairwise (r : series Q) (sec_rets : list (string * series (option Q))) :
  r <> [] -> NoDup (index r) -> NoDup ("S&P 500"%string :: map fst sec_rets) ->
  forall i j sx sy,
    nth_error (some_values r :: map snd sec_rets) i = Some sx ->
    nth_error (some_values r :: map snd sec_rets) j = Some sy ->
    (exists row,
        nth_error (corr (corr_df r sec_rets)) i = Some row
        /\ nth_error row j = Some (pearson (obs_on (index r) sx sy)))
    /\ (obs_on (index r) sx sy = [] -> pearson (obs_on (index r) sx sy) = None).
Proof.
  intros Hne Hnd _ i j sx sy Hi Hj.
  destruct (corr_df_columns r sec_rets Hne Hnd) as [_ Hcols].
  split; [| intros E; rewrite E; reflexivity].
  rewrite corr_of_columns, Hcols.
  set (all := some_values r :: map snd sec_rets) in *.
  eexists. split.
  - rewrite nth_error_map, nth_error_map, Hi. reflexivity.
  - rewrite nth_error_map, nth_error_map, Hj. simpl.
    rewrite pairwise_obs_reindex. reflexivity.
Qed.

Lemma corr_df_pairwise_witness :
  ragged_ret <> [] /\ NoDup (index ragged_ret)
  /\ NoDup ("S&P 500"%string :: map fst ragged_sectors)
  /\ exists row,
       nth_error (corr (corr_df ragged_ret ragged_sectors)) 0 = Some row
       /\ nth_error row 3
          = Some (pearson (obs_on (index ragged_ret) (some_values ragged_ret)
                                  (snd (nth 2 ragged_sectors (EmptyString, []))))).
Proof.
  assert (Hne : ragged_ret <> []) by discriminate.
  assert (Hnd : NoDup (index ragged_ret)).
  { repeat (constructor; [simpl; intuition discriminate |]). constructor. }
  assert (Hnames : NoDup ("S&P 500"%string :: map fst ragged_sectors)).
  { repeat (constructor; [simpl; intuition discriminate |]). constructor. }
  split; [exact Hne |]. split; [exact Hnd |]. split; [exact Hnames |].
  apply (corr_df_pairwise ragged_ret ragged_sectors Hne Hnd Hnames 0 3);
    reflexivity.
Defined.

(** The claim of an inner join fails on the code: in [ragged_sectors] no
    date carries a return of all six series, so a table computed on the
    shared dates would be undefined everywhere, yet the entry of the index
    and Technology is a number, computed on the four dates these two
    share. *)
Lemma corr_not_inner_join :
  map fst ragged_sectors = map fst SECTORS
  /\ common_dates (index ragged_ret) (some_values ragged_ret :: map snd ragged_sectors) = []
  /\ nth 1 (nth 0 (corr_inner_join (index ragged_ret)
                     (some_values ragged_ret :: map snd ragged_sectors)) []) None
     = None
  /\ (exists c q,
         nth 1 (nth 0 (corr (corr_df ragged_ret ragged_sectors)) []) None
         = Some (Over c (Sqrt q)) /\ 0 < c /\ 0 < q)
  /\ length (obs_on (index ragged_ret) (some_values ragged_ret)
                    (snd (nth 0 ragged_sectors (EmptyString, [])))) = 4%nat
  /\ corr (corr_df ragged_ret ragged_sectors)
     <> corr_inner_join (index ragged_ret)
          (some_values ragged_ret :: map snd ragged_sectors).
Proof.
  split; [reflexivity |]. split; [reflexivity |]. split; [reflexivity |].
  assert (He : exists c q,
             nth 1 (nth 0 (corr (corr_df ragged_ret ragged_sectors)) []) None
             = Some (Over c (Sqrt q)) /\ 0 < c /\ 0 < q).
  { eexists. eexists. split; [vm_compute; reflexivity |]. split; reflexivity. }
  split; [exact He |]. split; [reflexivity |].
  intros E. destruct He as [c [q [H _]]]. rewrite E in H.
  vm_compute in H. discriminate H.
Qed.

(** * Further properties of the code *)

(** ** The sign of the recovery time *)

Lemma first_valid_index_In {A : Type} (s : series A) (d : date) :
  first_valid_index s = Some d -> exists x, In (d, x) s.
Proof.
  destruct s as [| [d' x] s]; intros H; [discriminate |].
  injection H as <-. exists x. left. reflexivity.
Qed.

(** X2.  Over a sorted index, a recovery time that [recovery_time] returns
    is never negative: the recovery row is taken from
    [series.loc[trough:]]. *)
Theorem recovery_time_never_negative (s : series Q) (n : Z) :
  increasing (index s) -> recovery_time s = Ok (Some n) -> (0 <= n)%Z.
Proof.
  intros _.
  unfold recovery_time. destruct (idxmin (drawdown s)) as [trough | e];
    [| discriminate].
  unfold bind.
  destruct (series_max (loc_upto trough s)) as [pk |]; [| discriminate].
  destruct (first_valid_index (at_least pk (loc_since trough s))) as [r |] eqn:Hr;
    [| discriminate].
  intros H. injection H as <-.
  destruct (first_valid_index_In _ _ Hr) as [x Hin].
  unfold at_least in Hin. apply filter_In in Hin. destruct Hin as [Hin _].
  unfold loc_since in Hin. apply filter_In in Hin. destruct Hin as [_ Hle].
  apply Z.leb_le in Hle. simpl in Hle. lia.
Qed.

Lemma recovery_time_never_negative_witness :
  increasing (index scenario)
  /\ recovery_time scenario = Ok (Some 2%Z) /\ (0 <= 2)%Z.
Proof.
  assert (Hi : increasing (index scenario)) by prove_increasing.
  assert (H : recovery_time scenario = Ok (Some 2%Z)) by reflexivity.
  split; [exact Hi |]. split; [exact H |].
  apply (recovery_time_never_negative scenario 2 Hi H).
Defined.

(** ** Series that never decline, and series that only decline *)

Lemma max_drawdown_least (s : series Q) :
  s <> [] ->
  exists r, max_drawdown s = Some r
            /\ In r (values (drawdown s))
            /\ forall v, In v (values (drawdown s)) -> r <= v.
Proof.
  intros Hne. unfold max_drawdown, series_min.
  destruct (values (drawdown s)) as [| v0 vs] eqn:Hv.
  - exfalso. apply Hne. apply length_zero_iff_nil.
    rewrite <- drawdown_length. unfold values in Hv.
    apply map_eq_nil in Hv. rewrite Hv. reflexivity.
  - exists (min_from v0 vs). split; [reflexivity |].
    split; [apply min_from_attained |].
    destruct (min_from_lower vs v0) as [L0 Lin].
    intros v [<- | Hin]; [exact L0 | apply Lin; exact Hin].
Qed.

Lemma non_decreasing_of_steps (l : list Q) :
  (forall t a b, nth_error l t = Some a -> nth_error l (S t) = Some b -> a <= b) ->
  non_decreasing l.
Proof.
  induction l as [| x l IH]; intros H; [exact I |].
  simpl. split.
  - destruct l as [| y l]; [exact I |]. apply (H 0%nat); reflexivity.
  - apply IH. intros t a b Ha Hb. apply (H (S t)); assumption.
Qed.

(** When every drawdown is 0 the prices never go down. *)
Lemma flat_drawdown_non_decreasing (s : series Q) :
  positive s ->
  (forall v, In v (values (drawdown s)) -> v == 0) ->
  non_decreasing (values s).
Proof.
  intros Hp Hz. apply non_decreasing_of_steps. intros t a b Ha Hb.
  destruct (drawdown_nth s (S t) b Hb) as [m [HM Hd]].
  destruct (M_bounds s (S t) b m Hp Hb HM) as [Hbpos Hble].
  assert (Hmb : m == b).
  { apply rel_diff_zero; [lra |]. apply Hz. eapply nth_error_In; exact Hd. }
  destruct (M_is_max s (S t) m HM) as [Hup _].
  assert (a <= m) by (apply (Hup t a); [lia | exact Ha]). lra.
Qed.

(** X3.  On a non-empty series of positive prices the maximum drawdown is
    0 exactly when the prices never go down. *)
Theorem max_drawdown_zero_iff_non_decreasing (s : series Q) :
  s <> [] -> positive s ->
  exists r, max_drawdown s = Some r /\ (r == 0 <-> non_decreasing (values s)).
Proof.
  intros Hne Hp.
  destruct (max_drawdown_least s Hne) as [r [Hr [Hatt Hlow]]].
  exists r. split; [exact Hr |]. split.
  - intros Hz. apply (flat_drawdown_non_decreasing s Hp).
    intros v Hv. pose proof (Hlow v Hv) as Hge.
    destruct (drawdown_value s v Hv) as [t [x [m [Hx [HM [_ ->]]]]]].
    destruct (M_bounds s t x m Hp Hx HM) as [Hxpos Hxle].
    destruct (rel_diff_bounds x m Hxpos Hxle) as [_ Hle0]. lra.
  - intros Hnd. apply (drawdown_non_decreasing s r Hp Hnd Hatt).
Qed.

Lemma max_drawdown_zero_iff_non_decreasing_witness :
  rising <> [] /\ positive rising
  /\ exists r, max_drawdown rising = Some r /\ r == 0.
Proof.
  assert (Hne : rising <> []) by discriminate.
  assert (Hp : positive rising) by prove_positive.
  split; [exact Hne |]. split; [exact Hp |].
  destruct (max_drawdown_zero_iff_non_decreasing rising Hne Hp) as [r [Hr Hiff]].
  exists r. split; [exact Hr |]. apply Hiff.
  simpl. split; [discriminate | split; exact I].
Defined.

(** [recovery_time] in terms of row positions, on strictly increasing
    dates. *)
Lemma recovery_time_positional (s : series Q) :
  s <> [] -> increasing (index s) ->
  exists tstar dstar v peak,
    nth_error (index s) tstar = Some dstar
    /\ dd_at s tstar = Some v
    /\ (forall u w, dd_at s u = Some w -> v <= w)
    /\ M s tstar = Some peak
    /\ recovery_time s
       = Ok (option_map (fun r => (r - dstar)%Z)
                        (first_valid_index (at_least peak (skipn tstar s)))).
Proof.
  intros Hne Hinc.
  assert (Hdne : drawdown s <> []).
  { intros E. apply Hne. apply length_zero_iff_nil.
    rewrite <- drawdown_length, E. reflexivity. }
  destruct (idxmin_first_min (drawdown s) Hdne)
    as [tstar [dstar [v [Hidx [Hn [Hlow _]]]]]].
  apply nth_error_values in Hn. destruct Hn as [Hd Hv].
  rewrite drawdown_index in Hd. rewrite drawdown_is_dd_at in Hv.
  assert (HM : exists peak, M s tstar = Some peak).
  { unfold dd_at in Hv. destruct (nth_error (values s) tstar); [| discriminate].
    destruct (M s tstar) as [m |]; [exists m; reflexivity | discriminate]. }
  destruct HM as [peak HM].
  exists tstar, dstar, v, peak.
  split; [exact Hd |]. split; [exact Hv |].
  split; [intros u w Hw; apply (Hlow u); rewrite drawdown_is_dd_at; exact Hw |].
  split; [exact HM |].
  unfold recovery_time. rewrite Hidx. unfold bind.
  rewrite (loc_upto_increasing s tstar dstar Hinc Hd).
  rewrite (loc_since_increasing s tstar dstar Hinc Hd).
  fold (M s tstar). rewrite HM.
  destruct (first_valid_index (at_least peak (skipn tstar s))); reflexivity.
Qed.

Lemma rel_diff_negative (x m : Q) : 0 < x -> x < m -> (x - m) / m < 0.
Proof.
  intros Hx Hm. apply Qlt_shift_div_r; lra.
Qed.

Lemma strictly_decreasing_head (l : list Q) : forall x y,
  strictly_decreasing (x :: l) -> In y l -> y < x.
Proof.
  induction l as [| z l IH]; intros x y H Hin; [destruct Hin |].
  simpl in H. destruct H as [Hzx Hrest].
  destruct Hin as [<- | Hin]; [exact Hzx |].
  assert (y < z) by (apply IH; [exact Hrest | exact Hin]). lra.
Qed.

(** X4.  A series of positive prices that go down at every step, over at
    least two strictly increasing dates, never recovers: [recovery_time]
    returns the unrecovered value. *)
Theorem recovery_time_strictly_decreasing (s : series Q) :
  (2 <= length s)%nat -> positive s -> increasing (index s) ->
  strictly_decreasing (values s) ->
  recovery_time s = Ok None.
Proof.
  intros Hlen Hp Hinc Hdec.
  assert (Hne : s <> []) by (destruct s; [simpl in Hlen; lia | discriminate]).
  destruct (recovery_time_positional s Hne Hinc)
    as [tstar [dstar [v [peak [Hd [Hv [Hlow [HM Hrt]]]]]]]].
  rewrite Hrt. clear Hrt.
  destruct s as [| [d0 x0] [| [d1 x1] l]]; try (simpl in Hlen; lia).
  set (s := (d0, x0) :: (d1, x1) :: l) in *.
  assert (Hx0 : 0 < x0) by (apply (positive_nth s 0%nat x0 Hp); reflexivity).
  assert (Hlater : forall u y, (1 <= u)%nat -> nth_error (values s) u = Some y -> y < x0).
  { intros [| u] y Hu Hy; [lia |]. simpl in Hy.
    apply (strictly_decreasing_head (values ((d1, x1) :: l)) x0 y Hdec).
    eapply nth_error_In; exact Hy. }
  assert (Hpeak : peak <= x0).
  { destruct (M_is_max s tstar peak HM) as [_ [u [_ Hu]]].
    destruct u as [| u].
    - simpl in Hu. injection Hu as <-. lra.
    - assert (peak < x0) by (apply (Hlater (S u)); [lia | exact Hu]). lra. }
  assert (Hpeak0 : x0 <= peak).
  { destruct (M_is_max s tstar peak HM) as [Hup _].
    apply (Hup 0%nat); [lia | reflexivity]. }
  assert (Htstar : (1 <= tstar)%nat).
  { destruct tstar as [| t]; [| lia]. exfalso.
    assert (H1 : exists w, dd_at s 1 = Some w /\ w < 0).
    { unfold dd_at, s. simpl nth_error. rewrite M_cons. simpl firstn.
      simpl max_from.
      eexists. split; [reflexivity |].
      assert (Hx1 : x1 < x0) by (apply (Hlater 1%nat); [lia | reflexivity]).
      assert (Hx1pos : 0 < x1) by (apply (positive_nth s 1%nat x1 Hp); reflexivity).
      destruct (Qmax_cases x0 x1) as [[E _] | [E Hle]]; rewrite E.
      - apply rel_diff_negative; assumption.
      - lra. }
    destruct H1 as [w [Hw Hneg]].
    assert (H0 : v == 0).
    { unfold dd_at, s in Hv. simpl in Hv. injection Hv as <-.
      apply rel_diff_zero; lra. }
    pose proof (Hlow 1%nat w Hw). lra. }
  destruct (first_at_least peak (skipn tstar s))
    as [[E _] | [k [d' [x' [_ [Hk [Hge _]]]]]]].
  - rewrite E. reflexivity.
  - exfalso. rewrite nth_error_skipn in Hk.
    apply nth_error_values in Hk. destruct Hk as [_ Hk].
    assert (x' < x0) by (apply (Hlater (tstar + k)%nat); [lia | exact Hk]). lra.
Qed.

Lemma recovery_time_strictly_decreasing_witness :
  (2 <= length falling)%nat /\ positive falling /\ increasing (index falling)
  /\ strictly_decreasing (values falling)
  /\ recovery_time falling = Ok None.
Proof.
  assert (Hl : (2 <= length falling)%nat) by (simpl; lia).
  assert (Hp : positive falling) by prove_positive.
  assert (Hi : increasing (index falling)) by prove_increasing.
  assert (Hd : strictly_decreasing (values falling)).
  { simpl. repeat split. }
  split; [exact Hl |]. split; [exact Hp |]. split; [exact Hi |].
  split; [exact Hd |].
  apply (recovery_time_strictly_decreasing falling Hl Hp Hi Hd).
Defined.

Lemma increasing_nth_lt (l : list date) : forall i j a b,
  increasing l -> (i < j)%nat ->
  nth_error l i = Some a -> nth_error l j = Some b -> (a < b)%Z.
Proof.
  induction l as [| d l IH]; intros i j a b Hinc Hij Ha Hb.
  - destruct i; discriminate Ha.
  - simpl in Hinc. destruct Hinc as [Hlater Hinc].
    destruct j as [| j]; [lia |]. simpl in Hb.
    destruct i as [| i]; simpl in Ha.
    + injection Ha as <-. apply (increasing_nth_later l d j b Hlater Hb).
    + apply (IH i j a b Hinc); [lia | exact Ha | exact Hb].
Qed.

Lemma skipn_nth_error {A : Type} (l : list A) : forall t r,
  nth_error l t = Some r -> skipn t l = r :: skipn (S t) l.
Proof.
  induction l as [| a l IH]; intros t r H.
  - destruct t; discriminate H.
  - destruct t as [| t]; simpl in H.
    + injection H as <-. reflexivity.
    + simpl. apply IH. exact H.
Qed.

(** X5.  On a non-empty series of positive prices over strictly increasing
    dates, [recovery_time] returns 0 exactly when the prices never go
    down. *)
Theorem recovery_time_zero_iff (s : series Q) :
  s <> [] -> positive s -> increasing (index s) ->
  (recovery_time s = Ok (Some 0%Z) <-> non_decreasing (values s)).
Proof.
  intros Hne Hp Hinc.
  destruct (recovery_time_positional s Hne Hinc)
    as [tstar [dstar [v [peak [Hd [Hv [Hlow [HM Hrt]]]]]]]].
  rewrite Hrt. clear Hrt.
  assert (Hrow : exists x, nth_error s tstar = Some (dstar, x)
                           /\ v = (x - peak) / peak /\ 0 < x /\ x <= peak).
  { unfold index in Hd. rewrite nth_error_map in Hd.
    destruct (nth_error s tstar) as [[d x] |] eqn:Hs; [| discriminate].
    simpl in Hd. injection Hd as ->. exists x.
    apply nth_error_values in Hs. destruct Hs as [_ Hx].
    destruct (M_bounds s tstar x peak Hp Hx HM) as [Hxpos Hxle].
    unfold dd_at in Hv. rewrite Hx, HM in Hv. injection Hv as <-. auto. }
  destruct Hrow as [x [Hs [Ev [Hxpos Hxle]]]].
  assert (Hall : forall w, In w (values (drawdown s)) -> v <= w /\ w <= 0).
  { intros w Hw. destruct (drawdown_value s w Hw) as [t [y [m [Hy [HMt [Hn Ew]]]]]].
    rewrite drawdown_is_dd_at in Hn. split; [apply (Hlow t); exact Hn |].
    destruct (M_bounds s t y m Hp Hy HMt) as [Hypos Hyle].
    rewrite Ew. apply (rel_diff_bounds y m Hypos Hyle). }
  split.
  - intros H.
    destruct (first_at_least peak (skipn tstar s))
      as [[E _] | [k [d' [x' [E [Hk [Hge _]]]]]]]; rewrite E in H;
      [discriminate |].
    simpl in H. injection H as Hdiff.
    rewrite nth_error_skipn in Hk.
    assert (Hk0 : k = 0%nat).
    { destruct k as [| k]; [reflexivity |]. exfalso.
      apply nth_error_values in Hk. destruct Hk as [Hk _].
      pose proof (increasing_nth_lt (index s) tstar (tstar + S k) dstar d' Hinc
                    ltac:(lia) Hd Hk). lia. }
    subst k. rewrite Nat.add_0_r, Hs in Hk. injection Hk as _ <-.
    assert (Hv0 : v == 0) by (rewrite Ev; apply rel_diff_zero; lra).
    apply (flat_drawdown_non_decreasing s Hp).
    intros w Hw. destruct (Hall w Hw). lra.
  - intros Hnd.
    assert (Hv0 : v == 0).
    { apply (drawdown_non_decreasing s v Hp Hnd).
      apply (nth_error_In _ tstar). rewrite drawdown_is_dd_at. exact Hv. }
    assert (Hpx : peak == x) by (apply rel_diff_zero; [lra | rewrite <- Ev; exact Hv0]).
    rewrite (skipn_nth_error s tstar (dstar, x) Hs). unfold at_least. simpl.
    assert (Hb : Qle_bool peak x = true) by (apply Qle_bool_iff; lra).
    rewrite Hb. simpl. rewrite Z.sub_diag. reflexivity.
Qed.

Lemma recovery_time_zero_iff_witness :
  scenario <> [] /\ positive scenario /\ increasing (index scenario)
  /\ ~ non_decreasing (values scenario).
Proof.
  assert (Hne : scenario <> []) by discriminate.
  assert (Hp : positive scenario) by prove_positive.
  assert (Hi : increasing (index scenario)) by prove_increasing.
  split; [exact Hne |]. split; [exact Hp |]. split; [exact Hi |].
  assert (Hrt : recovery_time scenario = Ok (Some 2%Z)) by (vm_compute; reflexivity).
  intros Hnd. apply (recovery_time_zero_iff scenario Hne Hp Hi) in Hnd.
  rewrite Hrt in Hnd. discriminate Hnd.
Defined.

(** ** Missing keys in the dataset *)

Lemma select_level0_grouped {A : Type} (data : list (string * list (string * series A)))
      (ticker : string) :
  select_level0 ticker (columns (grouped_of data))
  = flat_map (fun tf => if key_eqb (fst tf) ticker
                        then map (fun fs => ([fst fs], snd fs)) (snd tf)
                        else []) data.
Proof.
  unfold grouped_of. simpl columns.
  induction data as [| [k fl] data IH]; [reflexivity |].
  simpl. rewrite select_level0_app, select_level0_group, IH. reflexivity.
Qed.

Lemma assoc_none_keys {B : Type} (key : string) (l : list (string * B)) :
  assoc key l = None -> forall k b, In (k, b) l -> key_eqb k key = false.
Proof.
  induction l as [| [k' b'] l IH]; intros H k b Hin; [destruct Hin |].
  simpl in H. destruct (key_eqb k' key) eqn:E; [discriminate |].
  destruct Hin as [Heq | Hin]; [injection Heq as <- <-; exact E | eauto].
Qed.

Lemma get_adj_close_grouped {A : Type} (data : list (string * list (string * series A)))
      (ticker : string) :
  get_adj_close (grouped_of data) ticker
  = match select_level0 ticker (columns (grouped_of data)) with
    | [] => Raise (KeyError ticker)
    | sub => match find_column "Close" sub with
             | Some s => Ok (PSeries s)
             | None => Raise (KeyError "Close")
             end
    end.
Proof.
  unfold get_adj_close. change (is_multiindex (grouped_of data)) with true.
  cbv iota.
  assert (Hg : getitem (PFrame (grouped_of data)) ticker
               = match select_level0 ticker (columns (grouped_of data)) with
                 | [] => Raise (KeyError ticker)
                 | sub => Ok (PFrame (Frame 1 sub))
                 end) by reflexivity.
  rewrite Hg.
  destruct (select_level0 ticker (columns (grouped_of data))); reflexivity.
Qed.

(** X6.  A key the dataset lacks is reported as the [KeyError] of that key.
    A flat table without a [Close] column raises [KeyError "Close"] for
    every ticker; a grouped table without the requested ticker raises
    [KeyError ticker]; a grouped table that has columns for the ticker but
    no [Close] among them raises [KeyError "Close"]. *)
Theorem get_adj_close_missing_key {A : Type} :
  (forall (fields : list (string * series A)) (ticker : string),
      assoc "Close" fields = None ->
      get_adj_close (flat_of fields) ticker = Raise (KeyError "Close"))
  /\ (forall (data : list (string * list (string * series A))) (ticker : string),
         assoc ticker data = None ->
         get_adj_close (grouped_of data) ticker = Raise (KeyError ticker))
  /\ (forall (data : list (string * list (string * series A))) (ticker : string),
         (exists fields, In (ticker, fields) data /\ fields <> []) ->
         (forall fields, In (ticker, fields) data -> assoc "Close" fields = None) ->
         get_adj_close (grouped_of data) ticker = Raise (KeyError "Close")).
Proof.
  split; [| split].
  - intros fields ticker Hc. unfold get_adj_close, flat_of. simpl.
    rewrite find_column_fields, Hc. reflexivity.
  - intros data ticker Hd. rewrite get_adj_close_grouped, select_level0_grouped.
    assert (E : flat_map (fun tf : string * list (string * series A) =>
                            if key_eqb (fst tf) ticker
                            then map (fun fs => ([fst fs], snd fs)) (snd tf)
                            else []) data = []).
    { pose proof (assoc_none_keys ticker data Hd) as Hk.
      clear Hd. induction data as [| [k fl] data IH]; [reflexivity |].
      simpl. rewrite (Hk k fl (or_introl eq_refl)). simpl.
      apply IH. intros k' b' Hin. apply (Hk k' b'). right. exact Hin. }
    rewrite E. reflexivity.
  - intros data ticker [fields0 [Hin0 Hne0]] Hall.
    rewrite get_adj_close_grouped, select_level0_grouped.
    assert (Hnone : find_column "Close"
                      (flat_map (fun tf : string * list (string * series A) =>
                                   if key_eqb (fst tf) ticker
                                   then map (fun fs => ([fst fs], snd fs)) (snd tf)
                                   else []) data) = None).
    { clear Hin0. induction data as [| [k fl] data IH]; [reflexivity |].
      simpl. rewrite find_column_app.
      rewrite IH by (intros f Hf; apply Hall; right; exact Hf).
      destruct (key_eqb k ticker) eqn:E; [| reflexivity].
      apply String.eqb_eq in E. subst k.
      rewrite find_column_fields, (Hall fl (or_introl eq_refl)). reflexivity. }
    assert (Hsome : flat_map (fun tf : string * list (string * series A) =>
                                if key_eqb (fst tf) ticker
                                then map (fun fs => ([fst fs], snd fs)) (snd tf)
                                else []) data <> []).
    { intros E. apply Hne0.
      assert (Hsub : forall c, In c (map (fun fs : string * series A =>
                                            ([fst fs], snd fs)) fields0) -> False).
      { intros c Hc.
        assert (Hi : In c (flat_map (fun tf : string * list (string * series A) =>
                                if key_eqb (fst tf) ticker
                                then map (fun fs => ([fst fs], snd fs)) (snd tf)
                                else []) data)).
        { apply in_flat_map. exists (ticker, fields0). split; [exact Hin0 |].
          simpl. unfold key_eqb. rewrite String.eqb_refl. exact Hc. }
        rewrite E in Hi. destruct Hi. }
      destruct fields0 as [| f fs]; [reflexivity |].
      exfalso. apply (Hsub ([fst f], snd f)). left. reflexivity. }
    destruct (flat_map _ data) as [| c sub]; [contradiction |].
    rewrite Hnone. reflexivity.
Qed.

Lemma get_adj_close_missing_key_witness :
  assoc "Close" [("Open", rising)]%string = None
  /\ get_adj_close (flat_of [("Open", rising)]%string) "XLK" = Raise (KeyError "Close")
  /\ get_adj_close (grouped_of [("^GSPC", [("Close", scenario)])]%string) "XLK"
     = Raise (KeyError "XLK")
  /\ get_adj_close (grouped_of [("XLK", [("Open", rising)])]%string) "XLK"
     = Raise (KeyError "Close").
Proof.
  assert (Hc : assoc "Close" [("Open", rising)]%string = None) by reflexivity.
  split; [exact Hc |]. split; [| split].
  - apply (proj1 (@get_adj_close_missing_key Q) _ "XLK"%string Hc).
  - apply (proj1 (proj2 (@get_adj_close_missing_key Q))). reflexivity.
  - apply (proj2 (proj2 (@get_adj_close_missing_key Q))).
    + exists [("Open", rising)]%string. split; [left; reflexivity | discriminate].
    + intros fields [E | []]. injection E as <-. reflexivity.
Defined.

(** ** The window slice as a price series *)

Lemma Forall_index_filter {A : Type} (P : date -> Prop) (f : date * A -> bool)
      (s : series A) :
  Forall P (index s) -> Forall P (index (filter f s)).
Proof.
  induction s as [| r s IH]; intros H; [constructor |].
  inversion H as [| ? ? Hr Hs]; subst. simpl.
  destruct (f r); [constructor; [exact Hr | apply IH; exact Hs] | apply IH; exact Hs].
Qed.

Lemma increasing_filter {A : Type} (f : date * A -> bool) (s : series A) :
  increasing (index s) -> increasing (index (filter f s)).
Proof.
  induction s as [| r s IH]; intros H; [exact I |].
  simpl in H. destruct H as [Hlater Hinc]. simpl.
  destruct (f r); [| apply IH; exact Hinc].
  simpl. split; [apply Forall_index_filter; exact Hlater | apply IH; exact Hinc].
Qed.

Lemma filter_twice {A : Type} (f : A -> bool) (l : list A) :
  filter f (filter f l) = filter f l.
Proof.
  induction l as [| a l IH]; [reflexivity |].
  simpl. destruct (f a) eqn:E; [simpl; rewrite E, IH; reflexivity | exact IH].
Qed.

(** X7.  The window slice of a price series is again a price series, so
    the statistics apply to it: it keeps dates strictly increasing and
    prices positive, it is no longer than the series, and slicing it again
    for the same year changes nothing. *)
Theorem window_slice_keeps_invariants (year : Z) (s : series Q) :
  (increasing (index s) -> increasing (index (window_slice year s)))
  /\ (positive s -> positive (window_slice year s))
  /\ (length (window_slice year s) <= length s)%nat
  /\ window_slice year (window_slice year s) = window_slice year s.
Proof.
  unfold window_slice, loc_between.
  split; [apply increasing_filter |]. split; [| split].
  - unfold positive. rewrite !Forall_forall. intros H x Hx.
    apply H. unfold values in *. apply in_map_iff in Hx.
    destruct Hx as [r [<- Hr]]. apply filter_In in Hr. destruct Hr as [Hr _].
    apply in_map. exact Hr.
  - apply filter_length_le.
  - apply filter_twice.
Qed.

Lemma window_slice_keeps_invariants_witness :
  increasing (index new_year_2009) /\ positive new_year_2009
  /\ increasing (index (window_slice 2008 new_year_2009))
  /\ positive (window_slice 2008 new_year_2009).
Proof.
  assert (Hi : increasing (index new_year_2009)) by prove_increasing.
  assert (Hp : positive new_year_2009) by prove_positive.
  split; [exact Hi |]. split; [exact Hp |]. split.
  - apply (proj1 (window_slice_keeps_invariants 2008 new_year_2009) Hi).
  - apply (proj1 (proj2 (window_slice_keeps_invariants 2008 new_year_2009)) Hp).
Defined.

Lemma days_in_year (y : Z) :
  (days_before_year (y + 1) - days_before_year y
   = 365 + (if is_leap y then 1 else 0))%Z.
Proof.
  unfold days_before_year, is_leap. cbv zeta.
  replace (y + 1 - 1)%Z with y by lia.
  assert (H4 : (y / 4 - (y - 1) / 4 = if y mod 4 =? 0 then 1 else 0)%Z).
  { destruct (Z.eqb_spec (y mod 4) 0); Z.to_euclidean_division_equations; lia. }
  assert (H100 : (y / 100 - (y - 1) / 100 = if y mod 100 =? 0 then 1 else 0)%Z).
  { destruct (Z.eqb_spec (y mod 100) 0); Z.to_euclidean_division_equations; lia. }
  assert (H400 : (y / 400 - (y - 1) / 400 = if y mod 400 =? 0 then 1 else 0)%Z).
  { destruct (Z.eqb_spec (y mod 400) 0); Z.to_euclidean_division_equations; lia. }
  assert (Hd1 : (y mod 100 = 0 -> y mod 4 = 0)%Z).
  { intros H. Z.to_euclidean_division_equations. lia. }
  assert (Hd2 : (y mod 400 = 0 -> y mod 100 = 0)%Z).
  { intros H. Z.to_euclidean_division_equations. lia. }
  destruct (Z.eqb_spec (y mod 4) 0);
    destruct (Z.eqb_spec (y mod 100) 0);
    destruct (Z.eqb_spec (y mod 400) 0); simpl; lia.
Qed.

Lemma leap_years_apart (y : Z) : is_leap (y - 1) && is_leap y = false.
Proof.
  unfold is_leap.
  destruct (Z.eqb_spec ((y - 1) mod 4) 0) as [E1 | _]; [| reflexivity].
  destruct (Z.eqb_spec (y mod 4) 0) as [E2 | _];
    [| simpl; apply andb_false_r].
  exfalso. revert E1 E2. Z.to_euclidean_division_equations. lia.
Qed.

(** X8.  The window of a crash year covers the two calendar years before
    its end date: the end is 730 days after the start, 731 when the year or
    the year before it is a leap year. *)
Theorem window_length (year : Z) :
  (window_end year - window_start year
   = 730 + (if is_leap (year - 1) || is_leap year then 1 else 0))%Z.
Proof.
  unfold window_start, window_end, toordinal, days_before_month.
  simpl.
  pose proof (days_in_year year) as H1.
  pose proof (days_in_year (year - 1)) as H0.
  replace (year - 1 + 1)%Z with year in H0 by lia.
  pose proof (leap_years_apart year) as Hx.
  destruct (is_leap (year - 1)); destruct (is_leap year); simpl in *;
    try discriminate Hx; lia.
Qed.

(** ** Returns *)

Lemma dropna_pct_change_from_index (s : series Q) : forall p,
  index (dropna (pct_change_from p s)) = index s.
Proof.
  induction s as [| [d x] s IH]; intros p; simpl; [reflexivity |].
  f_equal. apply IH.
Qed.


Lemma ret_index (s : series Q) : index (ret s) = tl (index s).
Proof.
  destruct s as [| [d x] s]; [reflexivity |].
  unfold ret. simpl. apply dropna_pct_change_from_index.
Qed.

Lemma ret_length (s : series Q) : length (ret s) = (length s - 1)%nat.
Proof.
  rewrite <- (length_map fst (ret s)). fold (index (ret s)).
  rewrite ret_index. unfold index. destruct s; simpl; [reflexivity |].
  rewrite length_map. lia.
Qed.




(** ** Volatility of a window slice *)

Lemma nth_error_row {A : Type} (s : series A) (t : nat) (d : date) (x : A) :
  nth_error (index s) t = Some d -> nth_error (values s) t = Some x ->
  nth_error s t = Some (d, x).
Proof.
  unfold index, values. rewrite !nth_error_map.
  destruct (nth_error s t) as [[d' x'] |]; simpl; [| discriminate].
  intros Hd Hx. injection Hd as ->. injection Hx as ->. reflexivity.
Qed.

Lemma vol30_early (r : series Q) (i : nat) :
  (i < 29)%nat -> (i < length r)%nat ->
  nth_error (values (vol30 r)) i = Some None.
Proof.
  intros Hi Hlen. unfold vol30. rewrite (rolling_std_nth 30 r i Hlen).
  cbv zeta. pose proof (window_at_short 30 i (values r) ltac:(lia)) as Hs.
  destruct (Nat.leb_spec 30 (length (window_at 30 i (values r)))) as [H | _];
    [lia | reflexivity].
Qed.

Lemma vol30_late (r : series Q) (i : nat) :
  (29 <= i)%nat -> (i < length r)%nat ->
  nth_error (values (vol30 r)) i
  = Some (Some (std 1 (window_at 30 i (values r)))).
Proof.
  intros Hi Hlen.
  assert (Hlv : (i < length (values r))%nat)
    by (unfold values; rewrite length_map; exact Hlen).
  destruct (window_at_full 30 i (values r) ltac:(lia) Hlv) as [_ [Hl _]].
  unfold vol30. rewrite (rolling_std_nth 30 r i Hlen). cbv zeta.
  rewrite Hl. reflexivity.
Qed.

(** X10.  The volatility chart of a window slice [s] of positive prices.
    [vol30 (ret s)] carries the dates of all rows of [s] but the first.
    With at most 30 prices in the slice every row of it is NaN; with 31 or
    more, rows 0 to 28 are NaN and the first value stands at row 29, under
    the date of the 31st price. *)
Theorem vol30_of_prices (s : series Q) :
  positive s ->
  index (vol30 (ret s)) = tl (index s)
  /\ ((length s <= 30)%nat -> forall c, In c (values (vol30 (ret s))) -> c = None)
  /\ ((31 <= length s)%nat ->
      (forall i, (i < 29)%nat -> nth_error (values (vol30 (ret s))) i = Some None)
      /\ exists d x sd,
           nth_error s 30 = Some (d, x)
           /\ nth_error (vol30 (ret s)) 29 = Some (d, Some sd)).
Proof.
  intros _.
  assert (Hidx : index (vol30 (ret s)) = tl (index s)).
  { unfold vol30. rewrite rolling_std_index. apply ret_index. }
  split; [exact Hidx |]. split.
  - intros Hshort c Hc. apply In_nth_error in Hc. destruct Hc as [i Hi].
    assert (Hlt : (i < length (ret s))%nat).
    { assert (Hl : (i < length (values (vol30 (ret s))))%nat)
        by (apply nth_error_Some; rewrite Hi; discriminate).
      unfold vol30 in Hl. rewrite rolling_std_values, length_map, length_seq in Hl.
      exact Hl. }
    pose proof (ret_length s) as Hrl.
    rewrite (vol30_early (ret s) i ltac:(lia) Hlt) in Hi. congruence.
  - intros Hlong. pose proof (ret_length s) as Hrl. split.
    + intros i Hi. apply vol30_early; lia.
    + destruct (nth_error s 30) as [[d x] |] eqn:Hs;
        [| apply nth_error_None in Hs; lia].
      exists d, x. eexists. split; [reflexivity |].
      apply nth_error_row.
      * rewrite Hidx. apply nth_error_values in Hs. destruct Hs as [Hd _].
        destruct s as [| r0 s']; [discriminate Hd | exact Hd].
      * apply vol30_late; lia.
Qed.

Lemma vol30_of_prices_witness :
  positive scenario /\ (length scenario <= 30)%nat
  /\ forall c, In c (values (vol30 (ret scenario))) -> c = None.
Proof.
  assert (Hp : positive scenario) by prove_positive.
  assert (Hl : (length scenario <= 30)%nat) by (simpl; lia).
  split; [exact Hp |]. split; [exact Hl |].
  apply (proj1 (proj2 (vol30_of_prices scenario Hp)) Hl).
Defined.

Lemma Qsum_nonneg (l : list Q) : Forall (fun x => 0 <= x) l -> 0 <= Qsum l.
Proof.
  induction 1 as [| x l Hx _ IH]; simpl; lra.
Qed.

Lemma ssqdm_nonneg (l : list Q) : 0 <= ssqdm l.
Proof.
  unfold ssqdm. cbv zeta. apply Qsum_nonneg. apply Forall_forall. intros y Hy.
  apply in_map_iff in Hy. destruct Hy as [x [<- _]].
  generalize (x - mean l). intros z. nra.
Qed.

(** X11.  Every value of a rolling standard deviation is the square root
    of a non-negative number: the variance under the root is never
    negative, whatever the window length and the returns. *)
Theorem rolling_std_radicand_nonneg (window : nat) (s : series Q) (i : nat) (q : Q) :
  nth_error (values (rolling_std window s)) i = Some (Some (Sqrt q)) -> 0 <= q.
Proof.
  intros H.
  assert (Hlen : (i < length s)%nat).
  { assert (Hl : (i < length (values (rolling_std window s)))%nat)
      by (apply nth_error_Some; rewrite H; discriminate).
    rewrite rolling_std_values, length_map, length_seq in Hl. exact Hl. }
  rewrite (rolling_std_nth window s i Hlen) in H. cbv zeta in H.
  set (w := window_at window i (values s)) in *.
  destruct (Nat.leb_spec window (length w)) as [_ | _]; [| discriminate H].
  destruct (Nat.ltb_spec 1 (length w)) as [H1 | _]; [| discriminate H].
  simpl in H. injection H as <-. unfold var.
  apply Qle_shift_div_l.
  - change 0 with (inject_Z 0). rewrite <- Zlt_Qlt. lia.
  - pose proof (ssqdm_nonneg w). lra.
Qed.

Lemma rolling_std_radicand_nonneg_witness :
  exists q, nth_error (values (rolling_std 3 scenario)) 2 = Some (Some (Sqrt q))
            /\ 0 <= q.
Proof.
  eexists. split; [vm_compute; reflexivity |].
  apply (rolling_std_radicand_nonneg 3 scenario 2). vm_compute. reflexivity.
Defined.

(** ** Shape and symmetry of the correlation table *)

Lemma Qmult_comm_eq (x y : Q) : x * y = y * x.
Proof.
  destruct x as [a b], y as [c d]. unfold Qmult. simpl.
  f_equal; [apply Z.mul_comm | apply Pos.mul_comm].
Qed.

Lemma pairwise_obs_swap (xs : list (option Q)) : forall ys,
  pairwise_obs ys xs = map (fun p => (snd p, fst p)) (pairwise_obs xs ys).
Proof.
  induction xs as [| [x |] xs IH]; intros [| [y |] ys]; simpl;
    try reflexivity; rewrite IH; reflexivity.
Qed.

Lemma pearson_swap (obs : list (Q * Q)) :
  pearson (map (fun p => (snd p, fst p)) obs) = pearson obs.
Proof.
  unfold pearson. rewrite length_map.
  destruct (length obs <? 1)%nat; [reflexivity |].
  rewrite !map_map. cbn [fst snd].
  set (mx := mean (map (fun p : Q * Q => fst p) obs)).
  set (my := mean (map (fun p : Q * Q => snd p) obs)).
  assert (Ec : map (fun p : Q * Q => (snd p - my) * (fst p - mx)) obs
               = map (fun p : Q * Q => (fst p - mx) * (snd p - my)) obs).
  { apply map_ext. intros p. apply Qmult_comm_eq. }
  rewrite Ec.
  rewrite (Qmult_comm_eq
             (Qsum (map (fun p : Q * Q => (snd p - my) * (snd p - my)) obs))
             (Qsum (map (fun p : Q * Q => (fst p - mx) * (fst p - mx)) obs))).
  reflexivity.
Qed.

(** An entry of the table, by the two columns it comes from. *)
Lemma corr_entry (df : dataframe) (i j : nat) (a : option ratio) :
  (exists row, nth_error (corr df) i = Some row /\ nth_error row j = Some a)
  <-> (exists cx cy,
          nth_error (map snd (df_columns df)) i = Some cx
          /\ nth_error (map snd (df_columns df)) j = Some cy
          /\ a = pearson (pairwise_obs cx cy)).
Proof.
  rewrite corr_of_columns. set (cols := map snd (df_columns df)).
  split.
  - intros [row [Hi Hj]]. rewrite nth_error_map in Hi.
    destruct (nth_error cols i) as [cx |]; [| discriminate].
    simpl in Hi. injection Hi as <-. rewrite nth_error_map in Hj.
    destruct (nth_error cols j) as [cy |]; [| discriminate].
    simpl in Hj. injection Hj as <-. exists cx, cy. auto.
  - intros [cx [cy [Hi [Hj ->]]]]. eexists. split.
    + rewrite nth_error_map, Hi. reflexivity.
    + rewrite nth_error_map, Hj. reflexivity.
Qed.

Lemma corr_df_width (r : series Q) (sec_rets : list (string * series (option Q))) :
  length (df_columns (corr_df r sec_rets)) = S (length sec_rets).
Proof.
  unfold corr_df.
  assert (H : forall secs df,
             length (df_columns
                       (fold_left (fun df ns => setitem df (fst ns) (snd ns)) secs df))
             = (length (df_columns df) + length secs)%nat).
  { induction secs as [| [n s] secs IH]; intros df; simpl; [lia |].
    rewrite IH. unfold setitem. simpl.
    destruct (df_index df); destruct s; simpl;
      rewrite length_app, ?length_map; simpl; lia. }
  rewrite H. reflexivity.
Qed.

(** X12.  The correlation table of the index and [n] sectors is a square
    table of side [n + 1], and it is symmetric: the entry of rows [i] and
    [j] is the entry of rows [j] and [i]. *)
Theorem corr_square_symmetric (r : series Q)
        (sec_rets : list (string * series (option Q))) :
  length (corr (corr_df r sec_rets)) = S (length sec_rets)
  /\ (forall row, In row (corr (corr_df r sec_rets)) ->
                  length row = S (length sec_rets))
  /\ (forall i j a,
         (exists row, nth_error (corr (corr_df r sec_rets)) i = Some row
                      /\ nth_error row j = Some a) ->
         exists row', nth_error (corr (corr_df r sec_rets)) j = Some row'
                      /\ nth_error row' i = Some a).
Proof.
  split; [| split].
  - unfold corr. rewrite length_map. apply corr_df_width.
  - intros row Hrow. unfold corr in Hrow. apply in_map_iff in Hrow.
    destruct Hrow as [cx [<- _]]. rewrite length_map. apply corr_df_width.
  - intros i j a H. apply corr_entry in H. apply corr_entry.
    destruct H as [cx [cy [Hi [Hj ->]]]]. exists cy, cx.
    split; [exact Hj |]. split; [exact Hi |].
    rewrite (pairwise_obs_swap cx cy). symmetry. apply pearson_swap.
Qed.

Lemma corr_square_symmetric_witness :
  (exists row, nth_error (corr (corr_df ragged_ret ragged_sectors)) 0 = Some row
               /\ nth_error row 3 = Some None)
  /\ exists row', nth_error (corr (corr_df ragged_ret ragged_sectors)) 3 = Some row'
                  /\ nth_error row' 0 = Some None.
Proof.
  assert (H : exists row,
             nth_error (corr (corr_df ragged_ret ragged_sectors)) 0 = Some row
             /\ nth_error row 3 = Some None).
  { eexists. split; [vm_compute; reflexivity | reflexivity]. }
  split; [exact H |].
  apply (proj2 (proj2 (corr_square_symmetric ragged_ret ragged_sectors)) 0%nat 3%nat None H).
Defined.

(** ** Values of the correlation table *)

Lemma sq_nonneg (z : Q) : 0 <= z * z.
Proof. nra. Qed.

Lemma mul_le_nonneg (k x y : Q) : 0 <= k -> x <= y -> k * x <= k * y.
Proof. intros Hk Hxy. nra. Qed.

Lemma cauchy_schwarz_step (a b A B C : Q) :
  0 <= A -> 0 <= B -> C * C <= A * B ->
  (a * b + C) * (a * b + C) <= (a * a + A) * (b * b + B).
Proof.
  intros HA HB HC.
  pose proof (sq_nonneg (A * (b * b) - (a * a) * B)) as H1.
  pose proof (sq_nonneg a) as Ha. pose proof (sq_nonneg b) as Hb.
  assert (HU : 0 <= A * (b * b) + (a * a) * B).
  { pose proof (mul_le_nonneg A 0 (b * b) HA Hb).
    pose proof (mul_le_nonneg B 0 (a * a) HB Ha). lra. }
  pose proof (mul_le_nonneg ((a * b) * (a * b)) (C * C) (A * B)
                            (sq_nonneg (a * b)) HC) as H2.
  set (U := A * (b * b) + (a * a) * B) in *.
  set (V := 2 * a * b * C).
  assert (HV : V * V <= U * U).
  { unfold U, V.
    setoid_replace (2 * a * b * C * (2 * a * b * C))
      with (4 * (a * b * (a * b) * (C * C))) by ring.
    setoid_replace ((A * (b * b) + a * a * B) * (A * (b * b) + a * a * B))
      with ((A * (b * b) - a * a * B) * (A * (b * b) - a * a * B)
            + 4 * (a * b * (a * b) * (A * B))) by ring.
    lra. }
  assert (HW : V <= U).
  { destruct (Qlt_le_dec U V) as [Hlt | Hle]; [| exact Hle].
    exfalso. assert (U * U < V * V) by nra. lra. }
  setoid_replace ((a * b + C) * (a * b + C)) with (a * b * (a * b) + V + C * C)
    by (unfold V; ring).
  setoid_replace ((a * a + A) * (b * b + B)) with (a * b * (a * b) + U + A * B)
    by (unfold U; ring).
  lra.
Qed.

(** The Cauchy-Schwarz inequality for the three sums of [pearson]. *)
Lemma cauchy_schwarz (f g : Q * Q -> Q) (l : list (Q * Q)) :
  0 <= Qsum (map (fun p => f p * f p) l)
  /\ 0 <= Qsum (map (fun p => g p * g p) l)
  /\ Qsum (map (fun p => f p * g p) l) * Qsum (map (fun p => f p * g p) l)
     <= Qsum (map (fun p => f p * f p) l) * Qsum (map (fun p => g p * g p) l).
Proof.
  induction l as [| p l [HA [HB HC]]]; simpl.
  - repeat split; lra.
  - pose proof (sq_nonneg (f p)). pose proof (sq_nonneg (g p)).
    split; [lra |]. split; [lra |].
    apply cauchy_schwarz_step; assumption.
Qed.

Lemma pearson_bounded (obs : list (Q * Q)) (c q : Q) :
  pearson obs = Some (Over c (Sqrt q)) -> 0 < q /\ c * c <= q.
Proof.
  unfold pearson. destruct (length obs <? 1)%nat; [discriminate |].
  set (mx := mean (map fst obs)). set (my := mean (map snd obs)).
  destruct (cauchy_schwarz (fun p => fst p - mx) (fun p => snd p - my) obs)
    as [HA [HB HC]].
  cbv zeta.
  destruct (Qeq_bool _ 0) eqn:E; [discriminate |].
  intros H. injection H as <- <-.
  split; [| exact HC].
  apply Qeq_bool_neq in E.
  set (A := Qsum (map (fun p : Q * Q => (fst p - mx) * (fst p - mx)) obs)) in *.
  set (B := Qsum (map (fun p : Q * Q => (snd p - my) * (snd p - my)) obs)) in *.
  assert (0 <= A * B) by nra.
  destruct (Qlt_le_dec 0 (A * B)) as [Hlt | Hle]; [exact Hlt |].
  exfalso. apply E. lra.
Qed.

(** X13.  Every entry of the table that is a number lies between -1 and 1:
    it is [c / sqrt q] with [q] positive and [c * c <= q]. *)
Theorem corr_entry_bounded (df : dataframe) (i j : nat) (row : list (option ratio))
        (c q : Q) :
  nth_error (corr df) i = Some row ->
  nth_error row j = Some (Some (Over c (Sqrt q))) ->
  0 < q /\ c * c <= q.
Proof.
  intros Hi Hj.
  assert (H : exists row, nth_error (corr df) i = Some row
                          /\ nth_error row j = Some (Some (Over c (Sqrt q))))
    by (exists row; auto).
  apply corr_entry in H. destruct H as [cx [cy [_ [_ E]]]].
  apply (pearson_bounded (pairwise_obs cx cy)). symmetry. exact E.
Qed.

Lemma corr_entry_bounded_witness :
  exists row c q,
    nth_error (corr (corr_df ragged_ret ragged_sectors)) 0 = Some row
    /\ nth_error row 1 = Some (Some (Over c (Sqrt q)))
    /\ 0 < q /\ c * c <= q.
Proof.
  eexists. eexists. eexists.
  assert (H1 : nth_error (corr (corr_df ragged_ret ragged_sectors)) 0
               = Some (nth 0 (corr (corr_df ragged_ret ragged_sectors)) []))
    by reflexivity.
  split; [exact H1 |].
  assert (H2 : nth_error (nth 0 (corr (corr_df ragged_ret ragged_sectors)) []) 1
               = Some (Some (Over _ (Sqrt _)))) by (vm_compute; reflexivity).
  split; [exact H2 |].
  apply (corr_entry_bounded _ 0 1 _ _ _ H1 H2).
Defined.

Lemma pairwise_obs_diag (xs : list (option Q)) :
  pairwise_obs xs xs
  = map (fun x => (x, x))
        (flat_map (fun c => match c with Some x => [x] | None => [] end) xs).
Proof.
  induction xs as [| [x |] xs IH]; simpl; [reflexivity | rewrite IH | exact IH];
    reflexivity.
Qed.

Lemma pearson_diag (l : list Q) :
  pearson (map (fun x => (x, x)) l)
  = if (length l <? 1)%nat then None
    else if Qeq_bool (ssqdm l * ssqdm l) 0 then None
         else Some (Over (ssqdm l) (Sqrt (ssqdm l * ssqdm l))).
Proof.
  unfold pearson, ssqdm. rewrite length_map, !map_map. cbn [fst snd].
  rewrite map_id. reflexivity.
Qed.

(** X14.  A diagonal entry of the table is 1 whenever it is a number: it
    is [c / sqrt (c * c)] with [c] positive; it is NaN when its column has
    no value or no variation. *)
Theorem corr_diagonal (df : dataframe) (i : nat) (row : list (option ratio))
        (a : option ratio) :
  nth_error (corr df) i = Some row -> nth_error row i = Some a ->
  a = None \/ exists c, 0 < c /\ a = Some (Over c (Sqrt (c * c))).
Proof.
  intros Hi Hj.
  assert (H : exists row, nth_error (corr df) i = Some row
                          /\ nth_error row i = Some a) by (exists row; auto).
  apply corr_entry in H. destruct H as [cx [cy [Hx [Hy ->]]]].
  assert (cy = cx) by congruence. subst cy.
  rewrite pairwise_obs_diag, pearson_diag.
  set (l := flat_map _ cx).
  destruct (length l <? 1)%nat; [left; reflexivity |].
  destruct (Qeq_bool (ssqdm l * ssqdm l) 0) eqn:E; [left; reflexivity |].
  right. exists (ssqdm l). split; [| reflexivity].
  apply Qeq_bool_neq in E. pose proof (ssqdm_nonneg l) as Hn.
  destruct (Qlt_le_dec 0 (ssqdm l)) as [Hlt | Hle]; [exact Hlt |].
  exfalso. apply E. assert (Hz : ssqdm l == 0) by lra. rewrite Hz. reflexivity.
Qed.

Lemma corr_diagonal_witness :
  exists row a,
    nth_error (corr (corr_df ragged_ret ragged_sectors)) 3 = Some row
    /\ nth_error row 3 = Some a
    /\ (a = None \/ exists c, 0 < c /\ a = Some (Over c (Sqrt (c * c)))).
Proof.
  eexists. eexists.
  assert (H1 : nth_error (corr (corr_df ragged_ret ragged_sectors)) 3
               = Some (nth 3 (corr (corr_df ragged_ret ragged_sectors)) []))
    by reflexivity.
  split; [exact H1 |].
  assert (H2 : nth_error (nth 3 (corr (corr_df ragged_ret ragged_sectors)) []) 3
               = Some None) by (vm_compute; reflexivity).
  split; [exact H2 |].
  apply (corr_diagonal _ 3 _ _ H1 H2).
Defined.

Lemma Qcount_cons {A : Type} (a : A) (l : list A) : Qcount (a :: l) == 1 + Qcount l.
Proof.
  unfold Qcount. simpl length. rewrite Nat2Z.inj_succ. unfold Z.succ.
  rewrite inject_Z_plus. change (inject_Z 1) with 1. lra.
Qed.

Lemma Qcount_nonneg {A : Type} (l : list A) : 0 <= Qcount l.
Proof.
  unfold Qcount. change 0 with (inject_Z 0). rewrite <- Zle_Qle. lia.
Qed.

Lemma Qsum_constant (k : Q) (l : list Q) :
  (forall x, In x l -> x == k) -> Qsum l == k * Qcount l.
Proof.
  induction l as [| x l IH]; intros H.
  - unfold Qcount. simpl. change (inject_Z 0) with 0. ring.
  - simpl Qsum. rewrite Qcount_cons.
    rewrite (H x (or_introl eq_refl)).
    rewrite IH by (intros y Hy; apply H; right; exact Hy). ring.
Qed.

Lemma mean_constant (k : Q) (l : list Q) :
  l <> [] -> (forall x, In x l -> x == k) -> mean l == k.
Proof.
  intros Hne H. unfold mean. rewrite (Qsum_constant k l H).
  destruct l as [| x l]; [contradiction |].
  assert (Hpos : 0 < Qcount (x :: l)).
  { rewrite Qcount_cons. pose proof (Qcount_nonneg l). lra. }
  field. lra.
Qed.

Lemma Qsum_zero (l : list Q) : (forall x, In x l -> x == 0) -> Qsum l == 0.
Proof.
  intros H. rewrite (Qsum_constant 0 l H). ring.
Qed.

Lemma ssq_constant (k : Q) (l : list Q) :
  (forall x, In x l -> x == k) ->
  Qsum (map (fun x => (x - mean l) * (x - mean l)) l) == 0.
Proof.
  intros H. destruct l as [| x0 l0] eqn:El; [reflexivity |].
  rewrite <- El in *.
  assert (Hm : mean l == k) by (apply mean_constant; [rewrite El; discriminate | exact H]).
  apply Qsum_zero. intros y Hy. apply in_map_iff in Hy.
  destruct Hy as [x [<- Hx]]. rewrite (H x Hx), Hm. ring.
Qed.

Lemma pearson_constant (obs : list (Q * Q)) (k : Q) :
  (forall p, In p obs -> fst p == k) \/ (forall p, In p obs -> snd p == k) ->
  pearson obs = None.
Proof.
  intros H. unfold pearson. destruct (length obs <? 1)%nat; [reflexivity |].
  cbv zeta.
  set (A := Qsum (map (fun p : Q * Q => (fst p - mean (map fst obs))
                                        * (fst p - mean (map fst obs))) obs)).
  set (B := Qsum (map (fun p : Q * Q => (snd p - mean (map snd obs))
                                        * (snd p - mean (map snd obs))) obs)).
  assert (Hz : A * B == 0).
  { destruct H as [H | H].
    - assert (HA : A == 0).
      { unfold A.
        rewrite <- (map_map fst (fun x => (x - mean (map fst obs))
                                          * (x - mean (map fst obs))) obs).
        apply (ssq_constant k). intros x Hx. apply in_map_iff in Hx.
        destruct Hx as [p [<- Hp]]. apply H. exact Hp. }
      rewrite HA. ring.
    - assert (HB : B == 0).
      { unfold B.
        rewrite <- (map_map snd (fun x => (x - mean (map snd obs))
                                          * (x - mean (map snd obs))) obs).
        apply (ssq_constant k). intros x Hx. apply in_map_iff in Hx.
        destruct Hx as [p [<- Hp]]. apply H. exact Hp. }
      rewrite HB. ring. }
  apply Qeq_bool_iff in Hz. rewrite Hz. reflexivity.
Qed.

Lemma pairwise_obs_fst (xs : list (option Q)) : forall ys p,
  In p (pairwise_obs xs ys) -> In (Some (fst p)) xs.
Proof.
  induction xs as [| [x |] xs IH]; intros [| [y |] ys] p Hin; simpl in Hin;
    try contradiction.
  - destruct Hin as [<- | Hin]; [left; reflexivity | right; eapply IH; exact Hin].
  - right. eapply IH; exact Hin.
  - right. eapply IH; exact Hin.
  - right. eapply IH; exact Hin.
Qed.

(** X15.  Without variation there is no correlation.  When a column holds
    the same number on all its rows, every entry of its row of the table is
    NaN, the diagonal one included; and an entry whose two columns share at
    most one row is NaN. *)
Theorem corr_needs_variation (df : dataframe) (i : nat) (cx : list (option Q))
        (row : list (option ratio)) :
  nth_error (map snd (df_columns df)) i = Some cx ->
  nth_error (corr df) i = Some row ->
  (forall k, (forall x, In (Some x) cx -> x == k) ->
             forall a, In a row -> a = None)
  /\ (forall j cy, nth_error (map snd (df_columns df)) j = Some cy ->
                   (length (pairwise_obs cx cy) <= 1)%nat ->
                   nth_error row j = Some None).
Proof.
  intros Hx Hrow.
  assert (Hentry : forall j a, nth_error row j = Some a ->
            exists cy, nth_error (map snd (df_columns df)) j = Some cy
                       /\ a = pearson (pairwise_obs cx cy)).
  { intros j a Hj.
    assert (H : exists row, nth_error (corr df) i = Some row
                            /\ nth_error row j = Some a) by (exists row; auto).
    apply corr_entry in H. destruct H as [cx' [cy [Hx' [Hy E]]]].
    assert (cx' = cx) by congruence. subst cx'. exists cy. auto. }
  split.
  - intros k Hk a Ha. apply In_nth_error in Ha. destruct Ha as [j Hj].
    destruct (Hentry j a Hj) as [cy [_ ->]].
    apply (pearson_constant _ k). left. intros p Hp.
    apply Hk. eapply pairwise_obs_fst; exact Hp.
  - intros j cy Hy Hlen.
    assert (H : exists row, nth_error (corr df) i = Some row
                            /\ nth_error row j = Some (pearson (pairwise_obs cx cy))).
    { apply corr_entry. exists cx, cy. auto. }
    destruct H as [row' [Hrow' Hj]].
    assert (row' = row) by congruence. subst row'. rewrite Hj. f_equal.
    destruct (pairwise_obs cx cy) as [| p [| p' obs]]; [reflexivity | |].
    + apply (pearson_constant _ (fst p)). left.
      intros p0 [<- | []]. reflexivity.
    + simpl in Hlen. lia.
Qed.

Lemma corr_needs_variation_witness :
  exists cx row,
    nth_error (map snd (df_columns (corr_df ragged_ret ragged_sectors))) 3 = Some cx
    /\ nth_error (corr (corr_df ragged_ret ragged_sectors)) 3 = Some row
    /\ (forall x, In (Some x) cx -> x == 5 # 100)
    /\ forall a, In a row -> a = None.
Proof.
  eexists. eexists.
  assert (H1 : nth_error (map snd (df_columns (corr_df ragged_ret ragged_sectors))) 3
               = Some [None; None; None; Some (5 # 100)]) by reflexivity.
  assert (H2 : nth_error (corr (corr_df ragged_ret ragged_sectors)) 3
               = Some (nth 3 (corr (corr_df ragged_ret ragged_sectors)) []))
    by reflexivity.
  assert (Hk : forall x, In (Some x) [None; None; None; Some (5 # 100)] -> x == 5 # 100).
  { intros x [H | [H | [H | [H | []]]]]; try discriminate H.
    injection H as <-. reflexivity. }
  split; [exact H1 |]. split; [exact H2 |]. split; [exact Hk |].
  apply (proj1 (corr_needs_variation _ 3 _ _ H1 H2) (5 # 100) Hk).
Defined.

(** ** The frame of normalised sector series *)

Lemma setitem_index (df : dataframe) (name : string) (s : series (option Q)) :
  df_index (setitem df name s)
  = match df_index df with [] => index s | idx => idx end.
Proof.
  unfold setitem. destruct df as [[| d idx] cols]; destruct s; reflexivity.
Qed.

Lemma setitem_names (df : dataframe) (name : string) (s : series (option Q)) :
  map fst (df_columns (setitem df name s)) = map fst (df_columns df) ++ [name].
Proof.
  unfold setitem. destruct df as [[| d idx] cols]; destruct s; simpl;
    rewrite map_app, ?map_map; reflexivity.
Qed.

Lemma setitem_rectangular (df : dataframe) (name : string) (s : series (option Q)) :
  rectangular df -> rectangular (setitem df name s).
Proof.
  unfold rectangular, setitem. destruct df as [[| d idx] cols]. 
  all: intros H; destruct s as [| r s]; simpl in *.
  - apply Forall_app. split; [exact H |].
    constructor; [reflexivity | constructor].
  - apply Forall_app. split.
    + apply Forall_forall. intros c Hc. apply in_map_iff in Hc.
      destruct Hc as [c' [<- _]]. simpl. rewrite !length_map. reflexivity.
    + constructor; [| constructor]. simpl. unfold reindex. simpl.
      rewrite !length_map. reflexivity.
  - apply Forall_app. split; [exact H |].
    constructor; [| constructor]. simpl. unfold reindex. rewrite length_map.
    reflexivity.
  - apply Forall_app. split; [exact H |].
    constructor; [| constructor]. simpl. unfold reindex. rewrite length_map.
    reflexivity.
Qed.

Lemma df_perf_loop_returns (year : Z) (closes : list (string * series Q)) :
  forall df,
    (forall name close, In (name, close) closes -> window_slice year close <> []) ->
    rectangular df ->
    exists df',
      df_perf_loop year closes df = Ok df'
      /\ rectangular df'
      /\ map fst (df_columns df') = map fst (df_columns df) ++ map fst closes
      /\ df_index df'
         = match df_index df, closes with
           | [], (_, close) :: _ => index (window_slice year close)
           | idx, _ => idx
           end.
Proof.
  induction closes as [| [n c] rest IH]; intros df Hall Hrect.
  - exists df. simpl. rewrite app_nil_r. repeat split; auto.
    destruct (df_index df); reflexivity.
  - simpl df_perf_loop.
    destruct (window_slice year c) as [| [d0 x0] ser] eqn:Hs;
      [exfalso; apply (Hall n c); [left; reflexivity | exact Hs] |].
    rewrite normalize_cons. unfold bind.
    set (col := some_values (map (fun r => (fst r, snd r / x0)) ((d0, x0) :: ser))).
    destruct (IH (setitem df n col)) as [df' [Hok [Hr [Hn Hi]]]].
    + intros name close Hin. apply (Hall name close). right. exact Hin.
    + apply setitem_rectangular. exact Hrect.
    + exists df'. split; [exact Hok |]. split; [exact Hr |]. split.
      * rewrite Hn, setitem_names, <- app_assoc. reflexivity.
      * rewrite Hi, setitem_index.
        destruct (df_index df) as [| d idx]; [| reflexivity].
        unfold col, some_values, index. rewrite !map_map. simpl. reflexivity.
Qed.

(** X16.  When the window holds at least one row of every sector, the loop
    over the sectors raises nothing: [df_perf] is a frame with one column
    per sector, named and ordered as the sectors are, over the dates of the
    first sector's slice, and every column has one cell per date. *)
Theorem df_perf_returns (year : Z) (n0 : string) (c0 : series Q)
        (rest : list (string * series Q)) :
  (forall name close,
      In (name, close) ((n0, c0) :: rest) -> window_slice year close <> []) ->
  exists df,
    df_perf year ((n0, c0) :: rest) = Ok df
    /\ map fst (df_columns df) = map fst ((n0, c0) :: rest)
    /\ df_index df = index (window_slice year c0)
    /\ rectangular df.
Proof.
  intros Hall.
  destruct (df_perf_loop_returns year ((n0, c0) :: rest) (DataFrame [] []) Hall)
    as [df [Hok [Hr [Hn Hi]]]]; [constructor |].
  exists df. split; [exact Hok |]. split; [exact Hn |]. split; [exact Hi | exact Hr].
Qed.

Lemma df_perf_returns_witness :
  (forall name close,
      In (name, close) [("Technology"%string, new_year_2009);
                        ("Healthcare"%string, new_year_2009)] ->
      window_slice 2008 close <> [])
  /\ exists df,
       df_perf 2008 [("Technology"%string, new_year_2009);
                     ("Healthcare"%string, new_year_2009)] = Ok df
       /\ map fst (df_columns df) = ["Technology"; "Healthcare"]%string.
Proof.
  assert (H : forall name close,
             In (name, close) [("Technology"%string, new_year_2009);
                               ("Healthcare"%string, new_year_2009)] ->
             window_slice 2008 close <> []).
  { intros name close [E | [E | []]]; injection E as _ <-; vm_compute; discriminate. }
  split; [exact H |].
  destruct (df_perf_returns 2008 _ _ _ H) as [df [Hok [Hn _]]].
  exists df. split; [exact Hok | exact Hn].
Defined.

(** ** The recovery line, for every result *)

Lemma str_int_not_marker (n : Z) :
  (str_int n ++ " days")%string <> "Not recovered days"%string.
Proof.
  unfold str_int. destruct (Z.to_int n) as [d | d]; destruct d; simpl;
    discriminate.
Qed.

(** X17.  The summary shows the line of an unrecovered crash in exactly two
    cases: when [recovery_time] returned the unrecovered value, and when it
    returned 0 days.  Every other count is printed as a number. *)
Theorem recovery_line_unrecovered_iff (rt : option Z) :
  recovery_line rt = recovery_line None <-> rt = None \/ rt = Some 0%Z.
Proof.
  split.
  - intros H. destruct rt as [n |]; [| left; reflexivity].
    destruct (Z.eqb_spec n 0) as [-> | Hn]; [right; reflexivity |].
    exfalso. rewrite (recovery_line_positive n Hn) in H.
    simpl in H. repeat (injection H as H).
    exact (str_int_not_marker n H).
  - intros [-> | ->]; reflexivity.
Qed.

(** ** Complete data *)

Lemma common_dates_complete (ds : list date) (all : list (series (option Q))) :
  (forall s d, In s all -> In d ds -> defined_at d s <> None) ->
  common_dates ds all = ds.
Proof.
  intros H. unfold common_dates.
  induction ds as [| d ds IH]; [reflexivity |].
  simpl.
  assert (E : forallb (fun s : series (option Q) =>
                         match defined_at d s with Some _ => true | None => false end)
                      all = true).
  { apply forallb_forall. intros s Hs.
    destruct (defined_at d s) eqn:Ed; [reflexivity |].
    exfalso. apply (H s d Hs); [left; reflexivity | exact Ed]. }
  rewrite E. f_equal. apply IH.
  intros s d' Hs Hd'. apply H; [exact Hs | right; exact Hd'].
Qed.

Lemma defined_at_some_values (s : series Q) (d : date) :
  In d (index s) -> defined_at d (some_values s) <> None.
Proof.
  unfold defined_at. induction s as [| [d' x] s IH]; intros Hin; [destruct Hin |].
  simpl. destruct (Z.eqb_spec d' d) as [_ | Hne]; [discriminate |].
  apply IH. destruct Hin as [E | Hin]; [contradiction | exact Hin].
Qed.

(** X18.  On complete data the table is the inner-join table.  When every
    sector series holds a return on every date of the index returns,
    pairwise deletion deletes nothing, and the table [corr] computes is
    the one computed on the dates all the series share. *)
Theorem corr_complete_data (r : series Q) (sec_rets : list (string * series (option Q))) :
  r <> [] -> NoDup (index r) ->
  (forall s d, In s (map snd sec_rets) -> In d (index r) -> defined_at d s <> None) ->
  common_dates (index r) (some_values r :: map snd sec_rets) = index r
  /\ corr (corr_df r sec_rets)
     = corr_inner_join (index r) (some_values r :: map snd sec_rets).
Proof.
  intros Hne Hnd Hall.
  assert (Hc : common_dates (index r) (some_values r :: map snd sec_rets) = index r).
  { apply common_dates_complete. intros s d [<- | Hs] Hd.
    - apply defined_at_some_values. exact Hd.
    - apply Hall; assumption. }
  split; [exact Hc |].
  unfold corr_inner_join. rewrite Hc.
  destruct (corr_df_columns r sec_rets Hne Hnd) as [_ Hcols].
  rewrite corr_of_columns, Hcols. unfold corr_pairwise.
  rewrite map_map. apply map_ext. intros sx.
  rewrite map_map. apply map_ext. intros sy.
  rewrite pairwise_obs_reindex. reflexivity.
Qed.

Lemma corr_complete_data_witness :
  ragged_ret <> [] /\ NoDup (index ragged_ret)
  /\ corr (corr_df ragged_ret [("Technology"%string,
                                snd (nth 0 ragged_sectors (EmptyString, [])))])
     = corr_inner_join (index ragged_ret)
         [some_values ragged_ret; snd (nth 0 ragged_sectors (EmptyString, []))].
Proof.
  assert (Hne : ragged_ret <> []) by discriminate.
  assert (Hnd : NoDup (index ragged_ret)).
  { repeat (constructor; [simpl; intuition discriminate |]). constructor. }
  split; [exact Hne |]. split; [exact Hnd |].
  apply (corr_complete_data ragged_ret
           [("Technology"%string, snd (nth 0 ragged_sectors (EmptyString, [])))]
           Hne Hnd).
  intros s d [<- | []] Hd.
  simpl in Hd. destruct Hd as [<- | [<- | [<- | [<- | []]]]]; vm_compute; discriminate.
Defined.

Lemma reindex_skip_head (d0 : date) (c : option Q) (s : series (option Q))
      (idx : list date) :
  Forall (fun d => (d0 < d)%Z) idx ->
  reindex idx ((d0, c) :: s) = reindex idx s.
Proof.
  intros H. unfold reindex. apply map_ext_in. intros d Hd.
  rewrite Forall_forall in H. specialize (H d Hd). simpl.
  destruct (Z.eqb_spec d0 d) as [E | _]; [lia | reflexivity].
Qed.

Lemma reindex_pct_change_from (s : series Q) : forall p,
  increasing (index s) ->
  reindex (index s) (pct_change_from p s)
  = map Some (values (dropna (pct_change_from p s))).
Proof.
  induction s as [| [d x] s IH]; intros p Hinc; [reflexivity |].
  simpl in Hinc. destruct Hinc as [Hlater Hinc].
  change (reindex (index ((d, x) :: s)) (pct_change_from p ((d, x) :: s)))
    with (defined_at d ((d, Some (x / p - 1)) :: pct_change_from x s)
          :: reindex (index s) ((d, Some (x / p - 1)) :: pct_change_from x s)).
  unfold defined_at. simpl lookup. rewrite Z.eqb_refl.
  rewrite (reindex_skip_head d _ _ (index s) Hlater).
  rewrite (IH x Hinc). reflexivity.
Qed.

(** X19.  A sector of positive prices whose window slice has the dates of
    the index slice, itself of positive prices, contributes a column
    without NaN: aligned on the dates of the index returns, its returns
    [sec_ret] are exactly its own returns, every row but the NaN first one,
    which falls on the date the index returns lack. *)
Theorem sector_column_complete (idx_ser sec : series Q) :
  positive idx_ser -> positive sec ->
  increasing (index idx_ser) -> index sec = index idx_ser ->
  reindex (index (ret idx_ser)) (pct_change sec) = map Some (values (ret sec)).
Proof.
  intros _ _ Hinc Hidx. rewrite ret_index, <- Hidx. rewrite <- Hidx in Hinc.
  destruct sec as [| [d0 y0] rest]; [reflexivity |].
  simpl in Hinc. destruct Hinc as [Hlater Hinc].
  simpl tl. unfold pct_change, ret. simpl dropna.
  rewrite (reindex_skip_head d0 None _ (index rest) Hlater).
  apply reindex_pct_change_from. exact Hinc.
Qed.

Lemma sector_column_complete_witness :
  positive scenario /\ increasing (index scenario) /\ index scenario = index scenario
  /\ reindex (index (ret scenario)) (pct_change scenario)
     = map Some (values (ret scenario)).
Proof.
  assert (Hp : positive scenario) by prove_positive.
  assert (Hi : increasing (index scenario)) by prove_increasing.
  split; [exact Hp |]. split; [exact Hi |]. split; [reflexivity |].
  apply (sector_column_complete scenario scenario Hp Hp Hi eq_refl).
Defined.

(** ** The two dataset shapes agree *)

Lemma group_of_absent_key {A B : Type} (g : list (string * series A) -> list B)
      (ticker : string) (data : list (string * list (string * series A))) :
  ~ In ticker (map fst data) ->
  flat_map (fun tf => if key_eqb (fst tf) ticker then g (snd tf) else []) data = [].
Proof.
  induction data as [| [k fl] data IH]; intros Hn; [reflexivity |].
  simpl. destruct (key_eqb k ticker) eqn:E.
  - exfalso. apply Hn. left. apply String.eqb_eq in E. exact E.
  - simpl. apply IH. intros H. apply Hn. right. exact H.
Qed.

Lemma group_of_unique_key {A B : Type} (g : list (string * series A) -> list B)
      (ticker : string) (fields : list (string * series A))
      (data : list (string * list (string * series A))) :
  NoDup (map fst data) -> In (ticker, fields) data ->
  flat_map (fun tf => if key_eqb (fst tf) ticker then g (snd tf) else []) data
  = g fields.
Proof.
  induction data as [| [k fl] data IH]; intros Hnd Hin; [destruct Hin |].
  simpl in Hnd. inversion Hnd as [| ? ? Hk Hnd']; subst.
  simpl. destruct Hin as [E | Hin].
  - injection E as -> ->. unfold key_eqb at 1. rewrite String.eqb_refl.
    rewrite (group_of_absent_key g ticker data Hk). apply app_nil_r.
  - destruct (key_eqb k ticker) eqn:E.
    + exfalso. apply String.eqb_eq in E. subst k. apply Hk.
      apply (in_map fst) in Hin. exact Hin.
    + simpl. apply IH; assumption.
Qed.

(** X20.  The two shapes give one answer.  In a grouped table with one
    group per ticker, asking for a ticker whose group has columns gives
    what the flat table of that group gives: the same [Close] series, or
    the same [KeyError "Close"]. *)
Theorem get_adj_close_shapes_agree {A : Type}
        (data : list (string * list (string * series A)))
        (ticker : string) (fields : list (string * series A)) :
  NoDup (map fst data) -> In (ticker, fields) data -> fields <> [] ->
  get_adj_close (grouped_of data) ticker = get_adj_close (flat_of fields) ticker.
Proof.
  intros Hnd Hin Hne.
  rewrite get_adj_close_grouped, select_level0_grouped.
  rewrite (group_of_unique_key _ ticker fields data Hnd Hin).
  unfold get_adj_close, flat_of, getitem. simpl.
  destruct fields as [| f fs]; [contradiction | reflexivity].
Qed.

Lemma get_adj_close_shapes_agree_witness :
  get_adj_close
    (grouped_of [("^GSPC", [("Close", scenario)]);
                 ("XLK", [("Open", rising); ("Close", falling)])]%string) "XLK"
  = get_adj_close (flat_of [("Open", rising); ("Close", falling)]%string) "XLK".
Proof.
  apply get_adj_close_shapes_agree.
  - repeat (constructor; [simpl; intuition discriminate |]). constructor.
  - right. left. reflexivity.
  - discriminate.
Defined.

(** ** The running maximum *)

Lemma cummax_from_index (s : series Q) : forall m,
  index (cummax_from m s) = index s.
Proof.
  induction s as [| [d x] s IH]; intros m; simpl; [reflexivity |].
  f_equal. apply IH.
Qed.

Lemma cummax_from_nth (s : series Q) : forall m t x,
  nth_error (values s) t = Some x ->
  nth_error (values (cummax_from m s)) t
  = Some (max_from m (firstn (S t) (values s))).
Proof.
  induction s as [| [d y] s IH]; intros m t x Hx.
  - destruct t; discriminate Hx.
  - destruct t as [| t]; [reflexivity |].
    simpl in Hx. apply (IH (Qmax m y)) in Hx. exact Hx.
Qed.

Lemma cummax_nth (s : series Q) (t : nat) (x : Q) :
  nth_error (values s) t = Some x ->
  nth_error (values (cummax s)) t = M s t.
Proof.
  destruct s as [| [d x0] s]; intros Hx; [destruct t; discriminate Hx |].
  rewrite M_cons. destruct t as [| t]; [reflexivity |].
  simpl in Hx |- *. apply (cummax_from_nth s x0 t x Hx).
Qed.

Lemma max_from_snoc (l : list Q) : forall m x,
  max_from m (l ++ [x]) = Qmax (max_from m l) x.
Proof.
  induction l as [| y l IH]; intros m x; simpl; [reflexivity | apply IH].
Qed.

Lemma firstn_succ {A : Type} (l : list A) : forall t x,
  nth_error l t = Some x -> firstn (S t) l = firstn t l ++ [x].
Proof.
  induction l as [| a l IH]; intros t x H.
  - destruct t; discriminate H.
  - destruct t as [| t]; simpl in H.
    + injection H as <-. reflexivity.
    + change (firstn (S (S t)) (a :: l)) with (a :: firstn (S t) l).
      rewrite (IH t x H). reflexivity.
Qed.

(** X22.  [cummax] is the running maximum.  It keeps the dates; its row [t]
    is the largest price of rows 0 to [t], so it is never below the price
    of its row; and it never decreases from one row to the next. *)
Theorem cummax_spec (s : series Q) :
  index (cummax s) = index s
  /\ (forall t x, nth_error (values s) t = Some x ->
        exists m, nth_error (values (cummax s)) t = Some m
                  /\ M s t = Some m /\ x <= m)
  /\ non_decreasing (values (cummax s)).
Proof.
  assert (Hrow : forall t x, nth_error (values s) t = Some x ->
            exists m, nth_error (values (cummax s)) t = Some m
                      /\ M s t = Some m /\ x <= m).
  { intros t x Hx. rewrite (cummax_nth s t x Hx).
    destruct (M s t) as [m |] eqn:HM.
    - exists m. split; [reflexivity |]. split; [reflexivity |].
      destruct (M_is_max s t m HM) as [Hup _]. apply (Hup t x); [lia | exact Hx].
    - destruct s as [| [d x0] s']; [destruct t; discriminate Hx |].
      rewrite M_cons in HM. discriminate HM. }
  split; [| split; [exact Hrow |]].
  - destruct s as [| [d x] s]; [reflexivity |]. simpl. f_equal.
    apply cummax_from_index.
  - apply non_decreasing_of_steps. intros t a b Ha Hb.
    assert (Hlen : length (values (cummax s)) = length (values s)).
    { unfold values. rewrite !length_map.
      rewrite <- (length_map fst (cummax s)), <- (length_map fst s).
      fold (index (cummax s)). fold (index s). f_equal.
      destruct s as [| [d x] s']; [reflexivity |]. simpl. f_equal.
      apply cummax_from_index. }
    destruct (nth_error (values s) t) as [x |] eqn:Hx;
      [| apply nth_error_None in Hx;
         assert (t < length (values (cummax s)))%nat
           by (apply nth_error_Some; rewrite Ha; discriminate); lia].
    destruct (nth_error (values s) (S t)) as [y |] eqn:Hy;
      [| apply nth_error_None in Hy;
         assert (S t < length (values (cummax s)))%nat
           by (apply nth_error_Some; rewrite Hb; discriminate); lia].
    rewrite (cummax_nth s t x Hx) in Ha. rewrite (cummax_nth s (S t) y Hy) in Hb.
    destruct s as [| [d x0] s']; [discriminate Ha |].
    rewrite M_cons in Ha, Hb. injection Ha as <-. injection Hb as <-.
    simpl in Hy.
    change (match values s' with [] => [] | a :: l => a :: firstn t l end)
      with (firstn (S t) (values s')).
    rewrite (firstn_succ (values s') t y Hy), max_from_snoc.
    destruct (Qmax_cases (max_from x0 (firstn t (values s'))) y) as [[E H] | [E H]];
      rewrite E; lra.
Qed.

Lemma cummax_spec_witness :
  nth_error (values scenario) 3 = Some 95
  /\ exists m, nth_error (values (cummax scenario)) 3 = Some m
               /\ M scenario 3 = Some m /\ 95 <= m.
Proof.
  assert (H : nth_error (values scenario) 3 = Some 95) by reflexivity.
  split; [exact H |].
  apply (proj1 (proj2 (cummax_spec scenario)) 3%nat 95 H).
Defined.
